(** * NotifyTwitter: a shallow embedding of apprise/plugins/twitter.py

    The plugin is modelled as state-passing code over a small state and
    exception monad.  Strings are byte strings ([string]); instants are
    integers counting microseconds since the epoch (the resolution of
    Python's naive [datetime]); JSON numbers are integers.

    Layout: Python values and helpers, the regular expressions of the
    plugin, the notifier object and its world, the gateway [_fetch], the
    resolver, the two senders, [send], and the URL functions; then the
    theorems. *)

From Stdlib Require Import List ZArith Bool Ascii String Lia Arith.
From Stdlib Require Import DecimalString Decimal.
Import ListNotations.
Open Scope string_scope.
Open Scope list_scope.
Open Scope Z_scope.

Set Implicit Arguments.
Set Warnings "-register-all".

(* ================================================================= *)
(** ** Python values *)

(** The exception classes the plugin raises, catches or lets through. *)
Inductive exn : Type :=
  | TypeError | ValueError | KeyError | AttributeError
  | OverflowError | OSError | RequestException.

Definition exn_eqb (a b : exn) : bool :=
  match a, b with
  | TypeError, TypeError | ValueError, ValueError | KeyError, KeyError
  | AttributeError, AttributeError | OverflowError, OverflowError
  | OSError, OSError | RequestException, RequestException => true
  | _, _ => false
  end.

(** A call either returns a value or raises. *)
Inductive result (A : Type) : Type :=
  | Returned (a : A)
  | Raised (e : exn).
Arguments Raised {A} e.

(** What [json.loads] can produce (fractional numbers are left out). *)
Inductive json : Type :=
  | JNull
  | JBool (b : bool)
  | JInt (z : Z)
  | JStr (s : string)
  | JList (l : list json)
  | JDict (d : list (string * json)).

(** Python truthiness, as used by [if x:] and [not x]. *)
Definition truthy (j : json) : bool :=
  match j with
  | JNull => false
  | JBool b => b
  | JInt z => negb (z =? 0)
  | JStr s => negb (String.eqb s "")
  | JList l => match l with [] => false | _ => true end
  | JDict d => match d with [] => false | _ => true end
  end.

(** [loads] keeps the last of several equal keys of an object; a lookup
    by key therefore reads the association list from the right. *)
Fixpoint assoc_last (k : string) (d : list (string * json)) : option json :=
  match d with
  | [] => None
  | (k', v) :: d' =>
      match assoc_last k d' with
      | Some w => Some w
      | None => if String.eqb k k' then Some v else None
      end
  end.

(** [j[k]] for a string subscript [k]: only a dict accepts it; a list or a
    string wants an integer index, the other values are not subscriptable. *)
Definition subscript (j : json) (k : string) : result json :=
  match j with
  | JDict d => match assoc_last k d with
               | Some v => Returned v
               | None => Raised KeyError
               end
  | _ => Raised TypeError
  end.

(** [j.get(k, default)]: only a dict has the method. *)
Definition dict_get (j : json) (k : string) (default : json) : result json :=
  match j with
  | JDict d => match assoc_last k d with
               | Some v => Returned v
               | None => Returned default
               end
  | _ => Raised AttributeError
  end.

(** Keys of Python dicts built by the plugin.  Only hashable values can be
    keys; [True] and [False] are the keys [1] and [0]. *)
Inductive pykey : Type :=
  | KNone
  | KInt (z : Z)
  | KStr (s : string).

Definition pykey_eqb (a b : pykey) : bool :=
  match a, b with
  | KNone, KNone => true
  | KInt x, KInt y => x =? y
  | KStr s, KStr t => String.eqb s t
  | _, _ => false
  end.

(** Hashing a value on its way to becoming a key. *)
Definition as_key (j : json) : result pykey :=
  match j with
  | JNull => Returned KNone
  | JBool b => Returned (KInt (if b then 1 else 0))
  | JInt z => Returned (KInt z)
  | JStr s => Returned (KStr s)
  | JList _ | JDict _ => Raised TypeError
  end.

(** An insertion-ordered dict, as [_user_cache], [results] and [targets]
    are: assignment to a present key keeps its position. *)
Definition pydict : Type := list (pykey * json).

Fixpoint dict_mem (k : pykey) (d : pydict) : bool :=
  match d with
  | [] => false
  | (k', _) :: d' => pykey_eqb k k' || dict_mem k d'
  end.

Fixpoint dict_find (k : pykey) (d : pydict) : option json :=
  match d with
  | [] => None
  | (k', v) :: d' => if pykey_eqb k k' then Some v else dict_find k d'
  end.

Fixpoint dict_set (k : pykey) (v : json) (d : pydict) : pydict :=
  match d with
  | [] => [(k, v)]
  | (k', v') :: d' =>
      if pykey_eqb k k' then (k', v) :: d' else (k', v') :: dict_set k v d'
  end.

(** [d.update(other)] *)
Definition dict_update (d other : pydict) : pydict :=
  fold_left (fun acc kv => dict_set (fst kv) (snd kv) acc) other d.

(* ================================================================= *)
(** ** Strings and the regular expressions of the plugin *)

Definition lower (c : ascii) : ascii :=
  let n := nat_of_ascii c in
  if ((65 <=? n) && (n <=? 90))%nat then ascii_of_nat (n + 32) else c.

(** [re.match(p, s, re.I)] for a literal [p] written in lower case:
    [s] starts with [p], letter case aside. *)
Fixpoint imatch_prefix (p s : string) : option string :=
  match p with
  | EmptyString => Some s
  | String a p' =>
      match s with
      | EmptyString => None
      | String b s' =>
          if Ascii.eqb a (lower b) then imatch_prefix p' s' else None
      end
  end.

(** [re.match(r"^image/.*", mimetype, re.I)] in [send] *)
Definition is_image (mimetype : string) : bool :=
  match imatch_prefix "image/" mimetype with Some _ => true | None => false end.

(** [re.match(r"^image/(png|jpe?g)", file_mime, re.I)] in [_send_tweet] *)
Definition is_batchable (file_mime : string) : bool :=
  match imatch_prefix "image/" file_mime with
  | None => false
  | Some rest =>
      match imatch_prefix "png" rest, imatch_prefix "jpeg" rest,
            imatch_prefix "jpg" rest with
      | None, None, None => false
      | _, _, _ => true
      end
  end.

(** [\s] on the ASCII range *)
Definition is_space (c : ascii) : bool :=
  let n := nat_of_ascii c in
  ((9 <=? n) && (n <=? 13) || (28 <=? n) && (n <=? 32))%nat.

(** [[A-Z0-9_]] under [re.I] *)
Definition is_word (c : ascii) : bool :=
  let n := nat_of_ascii (lower c) in
  ((97 <=? n) && (n <=? 122) || (48 <=? n) && (n <=? 57) || (n =? 95))%nat.

Fixpoint skip_spaces (s : string) : string :=
  match s with
  | String c s' => if is_space c then skip_spaces s' else s
  | EmptyString => s
  end.

Fixpoint span_word (s : string) : string * string :=
  match s with
  | String c s' =>
      if is_word c then let (w, r) := span_word s' in (String c w, r)
      else (EmptyString, s)
  | EmptyString => (EmptyString, EmptyString)
  end.

Definition newline : string := String (ascii_of_nat 10) EmptyString.

(** [IS_USER = re.compile(r"^\s*@?(?P<user>[A-Z0-9_]+)$", re.I)]:
    the [user] group of a match.  [$] also matches before a final
    newline. *)
Definition IS_USER (target : string) : option string :=
  let s := skip_spaces target in
  let s := match s with
           | String "@" s' => s'
           | _ => s
           end in
  let (user, rest) := span_word s in
  if String.eqb user "" then None
  else if String.eqb rest "" || String.eqb rest newline then Some user
  else None.

(** [f"{n:0{width}d}"] for a non-negative [n] *)
Definition digits (n : nat) : string := NilZero.string_of_uint (Nat.to_uint n).

Fixpoint zeros (k : nat) : string :=
  match k with O => "" | S k' => String "0" (zeros k') end.

Definition zfill (width n : nat) : string :=
  let d := digits n in (zeros (width - String.length d) ++ d)%string.

(** The page indicator [f"{no + 1:02d}/{total:02d}"] *)
Definition page_indicator (no total : nat) : string :=
  (zfill 2 (no + 1) ++ "/" ++ zfill 2 total)%string.

(* ================================================================= *)
(** ** BatchPlanner: the grouping loop of [_send_tweet] *)

(** An upload descriptor: the upload response extended by
    [response.update({"file_name", "file_mime", "file_path"})]. *)
Record descriptor : Type := {
  media_id : json;
  file_name : string;
  file_mime : string;
  file_path : string
}.

(** [__tweet_non_gif_images_batch] *)
Definition tweet_non_gif_images_batch : nat := 4.

Definition batch_size (batch : bool) : nat :=
  if batch then tweet_non_gif_images_batch else 1%nat.

(** A group is kept as the list of identifiers that [",".join(batch)]
    joins; [str(...)] and the join are left to the wire format. *)
Fixpoint plan_loop (size : nat) (attachments : list descriptor)
    (batches : list (list json)) (batch : list json) : list (list json) :=
  match attachments with
  | [] =>
      match batch with
      | [] => batches
      | _ => batches ++ [batch]
      end
  | attachment :: rest =>
      let batch := batch ++ [media_id attachment] in
      if negb (is_batchable (file_mime attachment))
         || (size <=? List.length batch)%nat
      then plan_loop size rest (batches ++ [batch]) []
      else plan_loop size rest batches batch
  end.

Definition plan (batch : bool) (attachments : list descriptor)
    : list (list json) :=
  plan_loop (batch_size batch) attachments [] [].

(* ================================================================= *)
(** ** Integers and instants *)

Definition digit_val (c : ascii) : option Z :=
  let n := nat_of_ascii c in
  if ((48 <=? n) && (n <=? 57))%nat then Some (Z.of_nat (n - 48)) else None.

(** The blanks [int] strips from both ends of a [str]: tab to carriage
    return and the space, and of the characters above 127 that a header
    can hold (it is decoded as Latin-1) the next-line and no-break-space
    characters.  The separators 28 to 31 are blanks for [\s] and for
    [str.strip], not for [int]. *)
Definition is_blank (c : ascii) : bool :=
  let n := nat_of_ascii c in
  ((9 <=? n) && (n <=? 13) || (n =? 32) || (n =? 133) || (n =? 160))%nat.

Fixpoint skip_blanks (s : string) : string :=
  match s with
  | String c s' => if is_blank c then skip_blanks s' else s
  | EmptyString => s
  end.

Fixpoint all_blanks (s : string) : bool :=
  match s with
  | EmptyString => true
  | String c s' => is_blank c && all_blanks s'
  end.

(** The digit part of an integer literal: digits, single underscores
    between digits, then trailing blanks only.  [after_digit] tells
    whether the previous character was a digit. *)
Fixpoint int_digits (s : string) (acc : Z) (after_digit : bool) : option Z :=
  match s with
  | EmptyString => if after_digit then Some acc else None
  | String c s' =>
      match digit_val c with
      | Some d => int_digits s' (10 * acc + d) true
      | None =>
          if after_digit then
            if Ascii.eqb c "_" then
              match s' with
              | String c' _ =>
                  match digit_val c' with
                  | Some _ => int_digits s' acc false
                  | None => None
                  end
              | EmptyString => None
              end
            else if all_blanks s then Some acc else None
          else None
      end
  end.

(** The digits of a literal, leading zeros included; [int] refuses a
    literal of more than [sys.int_info.default_max_str_digits] of them. *)
Fixpoint count_digits (s : string) : Z :=
  match s with
  | EmptyString => 0
  | String c s' =>
      match digit_val c with
      | Some _ => 1 + count_digits s'
      | None => count_digits s'
      end
  end.

Definition int_max_str_digits : Z := 4300.

(** [int(x)] for a header value [x]: [int(None)] is a [TypeError], a string
    that is not a decimal literal, or one of too many digits, a
    [ValueError]. *)
Definition py_int (x : option string) : result Z :=
  match x with
  | None => Raised TypeError
  | Some s =>
      let s := skip_blanks s in
      let (neg, s) := match s with
                      | String "-" s' => (true, s')
                      | String "+" s' => (false, s')
                      | _ => (false, s)
                      end in
      match int_digits s 0 false with
      | Some n =>
          if int_max_str_digits <? count_digits s then Raised ValueError
          else Returned (if neg then - n else n)
      | None => Raised ValueError
      end
  end.

(** Instants are microseconds since the epoch. *)
Definition second : Z := 1000000.

(** The range of the platform's [time_t], the range its [gmtime] accepts
    (the year has to fit a C [int]), and the range of [datetime] (the years
    1 to 9999), in seconds since the epoch. *)
Definition time_t_min : Z := - 2 ^ 63.
Definition time_t_max : Z := 2 ^ 63 - 1.
Definition gmtime_min : Z := -67768040609740800.
Definition gmtime_max : Z := 67768036191676799.
Definition datetime_min : Z := -62135596800.
Definition datetime_max : Z := 253402300799.

(** [datetime.fromtimestamp(t, timezone.utc).replace(tzinfo=None)] for an
    integer [t].  The three failures are those of the datetime module: a
    value that does not fit [time_t], one that [gmtime] rejects, and a year
    outside 1..9999. *)
Definition fromtimestamp (t : Z) : result Z :=
  if (t <? time_t_min) || (time_t_max <? t) then Raised OverflowError
  else if (t <? gmtime_min) || (gmtime_max <? t) then Raised OSError
  else if (t <? datetime_min) || (datetime_max <? t) then Raised ValueError
  else Returned (t * second).

(* ================================================================= *)
(** ** The notifier object *)

Inductive TwitterMessageMode : Type := DM | TWEET.

Definition mode_value (m : TwitterMessageMode) : string :=
  match m with DM => "dm" | TWEET => "tweet" end.

Definition TWITTER_MESSAGE_MODES : list TwitterMessageMode := [DM; TWEET].

(** The instance attributes.  [targets = None] is the state in which every
    supplied handle was rejected. *)
Record NotifyTwitter : Type := {
  ckey : string;
  csecret : string;
  akey : string;
  asecret : string;
  mode : TwitterMessageMode;
  cache : bool;
  batch : bool;
  targets : option (list string);
  _whoami_cache : option pydict;
  _user_cache : pydict;
  ratelimit_remaining : Z;
  ratelimit_reset : Z
}.

Definition set_remaining (v : Z) (o : NotifyTwitter) : NotifyTwitter :=
  {| ckey := ckey o; csecret := csecret o; akey := akey o;
     asecret := asecret o; mode := mode o; cache := cache o;
     batch := batch o; targets := targets o;
     _whoami_cache := _whoami_cache o; _user_cache := _user_cache o;
     ratelimit_remaining := v; ratelimit_reset := ratelimit_reset o |}.

Definition set_reset (v : Z) (o : NotifyTwitter) : NotifyTwitter :=
  {| ckey := ckey o; csecret := csecret o; akey := akey o;
     asecret := asecret o; mode := mode o; cache := cache o;
     batch := batch o; targets := targets o;
     _whoami_cache := _whoami_cache o; _user_cache := _user_cache o;
     ratelimit_remaining := ratelimit_remaining o; ratelimit_reset := v |}.

Definition set_whoami_cache (v : option pydict) (o : NotifyTwitter)
    : NotifyTwitter :=
  {| ckey := ckey o; csecret := csecret o; akey := akey o;
     asecret := asecret o; mode := mode o; cache := cache o;
     batch := batch o; targets := targets o;
     _whoami_cache := v; _user_cache := _user_cache o;
     ratelimit_remaining := ratelimit_remaining o;
     ratelimit_reset := ratelimit_reset o |}.

Definition set_user_cache (v : pydict) (o : NotifyTwitter) : NotifyTwitter :=
  {| ckey := ckey o; csecret := csecret o; akey := akey o;
     asecret := asecret o; mode := mode o; cache := cache o;
     batch := batch o; targets := targets o;
     _whoami_cache := _whoami_cache o; _user_cache := v;
     ratelimit_remaining := ratelimit_remaining o;
     ratelimit_reset := ratelimit_reset o |}.

(** What the plugin reads of an attachment ([AttachBase]). *)
Record attachment : Type := {
  accessible : bool;      (* bool(attachment) *)
  mimetype : string;
  name : string;          (* empty when the attachment has no name *)
  path : string;
  openable : bool         (* open(path, "rb") succeeds *)
}.

(* ================================================================= *)
(** ** Requests, responses and the trace *)

Definition twitter_lookup : string :=
  "https://api.twitter.com/1.1/users/lookup.json".
Definition twitter_whoami : string :=
  "https://api.twitter.com/1.1/account/verify_credentials.json".
Definition twitter_dm : string :=
  "https://api.twitter.com/1.1/direct_messages/events/new.json".
Definition twitter_tweet : string :=
  "https://api.twitter.com/1.1/statuses/update.json".
Definition twitter_media : string :=
  "https://upload.twitter.com/1.1/media/upload.json".

Inductive http_method : Type := GET | POST.

(** The payloads the plugin hands to [_fetch]. *)
Inductive payload : Type :=
  | PNone
  (* {"status": ..., "media_ids": ...} *)
  | PStatus (status : string) (media_ids : option (list json))
  (* the message_create event: recipient_id, text and the attachment's
     media id with its additional owners *)
  | PEvent (recipient_id : json) (text : string)
           (media : option (json * list json))
  (* {"screen_name": [...]} *)
  | PScreenName (names : list string)
  | PAttach (a : attachment).

Inductive body : Type :=
  | Data (p : payload)                       (* data=payload *)
  | JsonData (p : payload)                   (* data=dumps(payload) *)
  | Files (media_name media_path : string).  (* files={"media": ...} *)

Record request : Type := {
  r_url : string;
  r_method : http_method;
  r_body : body
}.

Record response : Type := {
  status_code : Z;
  content : option json;          (* loads(r.content); None when it raises *)
  x_rate_limit_remaining : option string;
  x_rate_limit_reset : option string
}.

(** [requests.post] / [requests.get] return a response or raise. *)
Inductive outcome : Type :=
  | Replied (r : response)
  | Fails (e : exn).

Inductive level : Type := Debug | Info | Warning | Error.

Inductive event : Type :=
  | Throttle (wait : option Z)
  | Request (issued : Z) (r : request)
  | Log (lvl : level) (msg : string).

Definition is_request (e : event) : bool :=
  match e with Request _ _ => true | _ => false end.

Definition requests_of (tr : list event) : list event := filter is_request tr.

(** The running program: the notifier, the wall clock and what it did. *)
Record state : Type := {
  self : NotifyTwitter;
  clock : Z;
  trace : list event
}.

(** Stateful code that may raise. *)
Definition M (A : Type) : Type := state -> result A * state.

Definition ret {A} (a : A) : M A := fun s => (Returned a, s).
Definition raise {A} (e : exn) : M A := fun s => (Raised e, s).
Definition bind {A B} (c : M A) (k : A -> M B) : M B :=
  fun s => match c s with
           | (Returned a, s') => k a s'
           | (Raised e, s') => (Raised e, s')
           end.

Notation "x <- c ;; k" := (bind c (fun x => k))
  (at level 61, c at next level, right associativity).
Notation "c ;; k" := (bind c (fun _ => k))
  (at level 61, right associativity).

Definition lift {A} (r : result A) : M A := fun s => (r, s).

(** [try: c except classes: handler] *)
Definition try_except {A} (c : M A) (classes : list exn) (handler : M A)
    : M A :=
  fun s => match c s with
           | (Raised e, s') =>
               if existsb (exn_eqb e) classes then handler s'
               else (Raised e, s')
           | r => r
           end.

Definition get_self : M NotifyTwitter := fun s => (Returned (self s), s).
Definition get_clock : M Z := fun s => (Returned (clock s), s).

Definition modify_self (f : NotifyTwitter -> NotifyTwitter) : M unit :=
  fun s => (Returned tt,
            {| self := f (self s); clock := clock s; trace := trace s |}).

Definition emit (e : event) : M unit :=
  fun s => (Returned tt,
            {| self := self s; clock := clock s; trace := trace s ++ [e] |}).

Definition log (lvl : level) (msg : string) : M unit := emit (Log lvl msg).

Definition sleep (d : Z) : M unit :=
  fun s => (Returned tt,
            {| self := self s; clock := clock s + d; trace := trace s |}).

(** Modelled from the spec: [parse_list] (utils.parse) is not part of this
    file; the resolver is said to "deduplicate requested handles".  The
    first occurrence of each handle is kept. *)
Fixpoint parse_list (l : list string) : list string :=
  match l with
  | [] => []
  | x :: l' =>
      x :: filter (fun y => negb (String.eqb x y)) (parse_list l')
  end.

(** [enumerate(l, start)] *)
Definition enumerate {A} (start : nat) (l : list A) : list (nat * A) :=
  combine (seq start (List.length l)) l.

(** [[names[i : i + 100] for i in range(0, len(names), 100)]], cut off
    after [fuel] slices. *)
Fixpoint slices (fuel : nat) (names : list string) : list (list string) :=
  match fuel with
  | O => []
  | S fuel' =>
      match names with
      | [] => []
      | _ => firstn 100 names :: slices fuel' (skipn 100 names)
      end
  end.

Definition lookup_batches (names : list string) : list (list string) :=
  slices (List.length names) names.

Section Dispatch.

(** The remote end: what the [n]-th request of this process is answered
    with, and the time the call takes. *)
Variable net : nat -> request -> outcome * N.

Definition perform (r : request) : M outcome :=
  fun s =>
    let (out, took) := net (List.length (requests_of (trace s))) r in
    (Returned out,
     {| self := self s; clock := clock s + Z.of_N took;
        trace := trace s ++ [Request (clock s) r] |}).

(* ================================================================= *)
(** ** RateLimiter and HttpGateway: [_fetch] *)

(** The wait computed at the head of [_fetch], in microseconds. *)
Definition ratelimit_wait (o : NotifyTwitter) (now : Z) : option Z :=
  if ratelimit_remaining o =? 0 then
    if now <? ratelimit_reset o
    then Some (ratelimit_reset o - now + second / 2)
    else None
  else None.

(** Modelled from the spec: [throttle] is a method of the base class, which
    is not part of this file; it "blocks the caller for the computed
    duration".  [request_rate_per_sec] is 0, so nothing else delays a
    call. *)
Definition throttle (wait : option Z) : M unit :=
  emit (Throttle wait) ;;
  match wait with
  | Some w => sleep w
  | None => ret tt
  end.

(** The body of the inner [try] of [_fetch]. *)
Definition capture_rate_limit (r : response) : M unit :=
  remaining <- lift (py_int (x_rate_limit_remaining r)) ;;
  modify_self (set_remaining remaining) ;;
  t <- lift (py_int (x_rate_limit_reset r)) ;;
  reset <- lift (fromtimestamp t) ;;
  modify_self (set_reset reset).

(** The two [except] clauses of the outer [try]; [content] is the value the
    variable holds when the exception arrives. *)
Definition fetch_handlers (content : json) (c : M (bool * json))
    : M (bool * json) :=
  try_except
    (try_except c [RequestException]
       (log Warning "Exception received when sending Twitter" ;;
        ret (false, content)))
    [OSError]
    (log Warning "An I/O error occurred" ;; ret (false, content)).

(** What [_fetch] sends as the body: an attachment is opened for a
    multipart upload, before the [try] block, so a failing [open] leaves
    [_fetch] as it is raised. *)
Definition fetch_data (p : payload) (as_json : bool) : result body :=
  match p with
  | PAttach a =>
      if openable a then Returned (Files (name a) (path a))
      else Raised OSError
  | _ => Returned (if as_json then JsonData p else Data p)
  end.

(** [_fetch(url, payload, method, json)]; the flag [json] is [as_json]
    here.  The [finally] clause closes the file and changes nothing that is
    modelled; debug lines are not traced. *)
Definition _fetch (url : string) (p : payload) (method : http_method)
    (as_json : bool) : M (bool * json) :=
  data <- lift (fetch_data p as_json) ;;
  o <- get_self ;;
  now <- get_clock ;;
  let wait := ratelimit_wait o now in
  throttle wait ;;
  out <- perform {| r_url := url; r_method := method; r_body := data |} ;;
  match out with
  | Fails e => fetch_handlers (JDict []) (raise e)
  | Replied r =>
      let content := match content r with
                     | Some j => j
                     | None => JDict []
                     end in
      if negb (status_code r =? 200) then
        log Warning "Failed to send Twitter" ;;
        ret (false, content)
      else
        fetch_handlers content
          (try_except (capture_rate_limit r) [TypeError; ValueError] (ret tt) ;;
           ret (true, content))
  end.

(* ================================================================= *)
(** ** IdentityResolver: [_whoami] and [_user_lookup] *)

Definition cache_results (results : pydict) : M unit :=
  modify_self (fun o => set_user_cache (dict_update (_user_cache o) results) o).

Definition _whoami (lazy : bool) : M pydict :=
  o <- get_self ;;
  match (if lazy then _whoami_cache o else None) with
  | Some cached => ret cached
  | None =>
      r <- _fetch twitter_whoami PNone GET false ;;
      let (postokay, response) := r in
      if postokay then
        try_except
          (id <- lift (subscript response "id") ;;
           screen_name <- lift (subscript response "screen_name") ;;
           k <- lift (as_key screen_name) ;;
           let results := dict_set k id [] in
           modify_self (set_whoami_cache (Some [(k, id)])) ;;
           cache_results results ;;
           ret results)
          [TypeError; KeyError] (ret [])
      else ret []
  end.

(** [k in names] for a key of the cache *)
Definition key_in (k : pykey) (names : list string) : bool :=
  match k with
  | KStr s => existsb (String.eqb s) names
  | _ => false
  end.

(** [results[entry["screen_name"]] = entry["id"]] under
    [suppress(TypeError, KeyError)]; both subscripts and the hashing raise
    nothing else. *)
Definition record_entry (results : pydict) (entry : json) : pydict :=
  match subscript entry "id" with
  | Returned id =>
      match subscript entry "screen_name" with
      | Returned screen_name =>
          match as_key screen_name with
          | Returned k => dict_set k id results
          | Raised _ => results
          end
      | Raised _ => results
      end
  | Raised _ => results
  end.

Fixpoint lookup_loop (batches : list (list string)) (results : pydict)
    : M pydict :=
  match batches with
  | [] => ret results
  | names :: rest =>
      r <- _fetch twitter_lookup (PScreenName names) POST false ;;
      let (postokay, response) := r in
      match postokay, response with
      | true, JList entries =>
          lookup_loop rest (fold_left record_entry entries results)
      | _, _ => lookup_loop rest results
      end
  end.

Definition _user_lookup (screen_name : list string) (lazy : bool)
    : M pydict :=
  o <- get_self ;;
  let names := parse_list screen_name in
  let (results, names) :=
    match lazy, _user_cache o with
    | true, _ :: _ =>
        let results :=
          filter (fun kv => key_in (fst kv) names) (_user_cache o) in
        (results,
         filter (fun name => negb (dict_mem (KStr name) results)) names)
    | _, _ => ([], names)
    end in
  match names with
  | [] => ret results
  | _ =>
      results <- lookup_loop (lookup_batches names) results ;;
      cache_results results ;;
      ret results
  end.

(* ================================================================= *)
(** ** Dispatcher: [_send_tweet] *)

(** [if no or not body] *)
Definition paged_text (no total : nat) (body : string) : string :=
  if negb (no =? 0)%nat || String.eqb body "" then page_indicator no total
  else body.

Definition tweet_payloads (body : string) (batch : bool)
    (attachments : list descriptor) : list payload :=
  match attachments with
  | [] => [PStatus body None]
  | _ =>
      let batches := plan batch attachments in
      map (fun nm => PStatus (paged_text (fst nm) (List.length batches) body)
                             (Some (snd nm)))
          (enumerate 0 batches)
  end.

(** [for e in x]: what iterating over a value yields. *)
Fixpoint chars (s : string) : list json :=
  match s with
  | EmptyString => []
  | String c s' => JStr (String c EmptyString) :: chars s'
  end.

Definition iterate (x : json) : result (list json) :=
  match x with
  | JList l => Returned l
  | JDict d => Returned (map (fun kv => JStr (fst kv)) d)
  | JStr s => Returned (chars s)
  | _ => Raised TypeError
  end.

(** The list comprehension over [response["errors"]]: the pair
    [(e.get("code", "unk"), e.get("message"))] of every entry. *)
Fixpoint error_entries (l : list json) : result (list (json * json)) :=
  match l with
  | [] => Returned []
  | e :: l' =>
      match dict_get e "code" (JStr "unk") with
      | Raised x => Raised x
      | Returned code =>
          match dict_get e "message" JNull with
          | Raised x => Raised x
          | Returned message =>
              match error_entries l' with
              | Raised x => Raised x
              | Returned r => Returned ((code, message) :: r)
              end
          end
      end
  end.

Definition tweet_errors (response : json) : M (list (json * json)) :=
  try_except
    (errors <- lift (subscript response "errors") ;;
     entries <- lift (iterate errors) ;;
     lift (error_entries entries))
    [KeyError; TypeError] (ret []).

Fixpoint log_all (lvl : level) (msg : string) (n : nat) : M unit :=
  match n with
  | O => ret tt
  | S n' => log lvl msg ;; log_all lvl msg n'
  end.

(** The sending loop of [_send_tweet]; it returns [has_error]. *)
Fixpoint tweet_loop (payloads : list payload) (has_error : bool) : M bool :=
  match payloads with
  | [] => ret has_error
  | p :: rest =>
      r <- _fetch twitter_tweet p POST false ;;
      let (postokay, response) := r in
      if negb postokay then
        errors <- tweet_errors response ;;
        log_all Debug "Tweet Details: Error Code" (List.length errors) ;;
        tweet_loop rest true
      else
        log Debug "Tweet Details: url" ;;
        log Info "Sent Twitter notification as public tweet." ;;
        tweet_loop rest has_error
  end.

Definition _send_tweet (body : string) (attachments : list descriptor)
    : M bool :=
  o <- get_self ;;
  has_error <- tweet_loop (tweet_payloads body (batch o) attachments) false ;;
  ret (negb has_error).

(* ================================================================= *)
(** ** Dispatcher: [_send_dm] *)

Definition dm_payloads (body : string) (targets : pydict)
    (attachments : list descriptor) : list payload :=
  match attachments with
  | [] => [PEvent JNull body None]
  | _ =>
      map (fun na =>
             PEvent JNull
                    (paged_text (fst na) (List.length attachments) body)
                    (Some (media_id (snd na), map snd targets)))
          (enumerate 0 attachments)
  end.

(** [target["recipient_id"] = user_id] *)
Definition set_recipient (user_id : json) (p : payload) : payload :=
  match p with
  | PEvent _ text media => PEvent user_id text media
  | _ => p
  end.

(** The inner loop over [targets.items()]. *)
Fixpoint dm_targets_loop (p : payload) (targets : pydict) (has_error : bool)
    : M bool :=
  match targets with
  | [] => ret has_error
  | (_, user_id) :: rest =>
      r <- _fetch twitter_dm (set_recipient user_id p) POST true ;;
      let (postokay, _) := r in
      if negb postokay then dm_targets_loop p rest true
      else
        log Info "Sent Twitter DM notification" ;;
        dm_targets_loop p rest has_error
  end.

Fixpoint dm_loop (payloads : list payload) (targets : pydict)
    (has_error : bool) : M bool :=
  match payloads with
  | [] => ret has_error
  | p :: rest =>
      has_error <- dm_targets_loop p targets has_error ;;
      dm_loop rest targets has_error
  end.

Definition _send_dm (body : string) (attachments : list descriptor)
    : M bool :=
  o <- get_self ;;
  match targets o with
  | None => raise TypeError          (* len(None) *)
  | Some handles =>
      targets <- match handles with
                 | [] => _whoami (cache o)
                 | _ => _user_lookup handles (cache o)
                 end ;;
      match targets with
      | [] =>
          log Warning
            "Failed to acquire user(s) to Direct Message via Twitter" ;;
          ret false
      | _ =>
          has_error <-
            dm_loop (dm_payloads body targets attachments) targets false ;;
          ret (negb has_error)
      end
  end.

(* ================================================================= *)
(** ** Dispatcher and AttachmentUploader: [send] *)

(** [isinstance(response, dict) and response.get("media_id")], when it is
    truthy. *)
Definition uploaded_media_id (response : json) : option json :=
  match response with
  | JDict d =>
      match assoc_last "media_id" d with
      | Some v => if truthy v then Some v else None
      | None => None
      end
  | _ => None
  end.

(** The upload loop of [send]: [None] stands for the [return False] inside
    the loop, [Some attachments] for its normal end. *)
Fixpoint upload_loop (attach : list (nat * attachment))
    (attachments : list descriptor) : M (option (list descriptor)) :=
  match attach with
  | [] => ret (Some attachments)
  | (no, a) :: rest =>
      if negb (accessible a) then
        log Error "Could not access attachment" ;;
        ret None
      else if negb (is_image (mimetype a)) then
        log Warning "Ignoring unsupported Twitter attachment" ;;
        upload_loop rest attachments
      else
        r <- _fetch twitter_media (PAttach a) POST true ;;
        let (postokay, response) := r in
        if negb postokay then ret None
        else
          let filename :=
            if String.eqb (name a) ""
            then ("file" ++ zfill 3 no ++ ".dat")%string
            else name a in
          match uploaded_media_id response with
          | Some id =>
              upload_loop rest
                (attachments ++
                 [{| media_id := id; file_name := filename;
                     file_mime := mimetype a; file_path := path a |}])
          | None =>
              log Debug "Could not attach the file to Twitter" ;;
              upload_loop rest attachments
          end
  end.

Definition send (body : string) (attach : list attachment) : M bool :=
  o <- get_self ;;
  match targets o with
  | None =>
      log Warning "No valid Twitter targets to notify." ;;
      ret false
  | Some _ =>
      uploaded <- upload_loop (enumerate 1 attach) [] ;;
      match uploaded with
      | None => ret false
      | Some attachments =>
          match mode o with
          | TWEET => _send_tweet body attachments
          | DM => _send_dm body attachments
          end
      end
  end.

End Dispatch.

(* ================================================================= *)
(** ** Construction: [__init__] and [__len__] *)

Fixpoint rstrip (s : string) : string :=
  match s with
  | EmptyString => EmptyString
  | String c s' =>
      let r := rstrip s' in
      if String.eqb r "" && is_space c then EmptyString else String c r
  end.

Definition strip (s : string) : string := rstrip (skip_spaces s).

(** Modelled from the spec: [validate_regex] (utils.parse) is not part of
    this file; a secret is "invalid (empty/whitespace-only after
    trimming)", and the trimmed secret is what is kept. *)
Definition validate_regex (value : string) : option string :=
  let v := strip value in
  if String.eqb v "" then None else Some v.

(** [next((a for a in TWITTER_MESSAGE_MODES if a.startswith(mode)), None)]
    for a non-empty string; no mode, or an empty one, is the default. *)
Definition resolve_mode (mode : option string)
    : result TwitterMessageMode :=
  match mode with
  | None => Returned DM
  | Some m =>
      if String.eqb m "" then Returned DM
      else
        match find (fun a => String.prefix m (mode_value a))
                   TWITTER_MESSAGE_MODES with
        | Some a => Returned a
        | None => Raised TypeError
        end
  end.

(** The loop over [parse_list(targets)]: the handles kept, and
    [has_error]. *)
Fixpoint load_targets (l : list string) : list string * bool :=
  match l with
  | [] => ([], false)
  | target :: rest =>
      let (kept, has_error) := load_targets rest in
      match IS_USER target with
      | Some user => (user :: kept, has_error)
      | None => (kept, true)
      end
  end.

(** [NotifyTwitter(ckey, csecret, akey, asecret, targets, mode, cache,
    batch)].  [class_reset] is the class attribute [ratelimit_reset], the
    instant the module was loaded. *)
Definition __init__ (class_reset : Z) (ckey csecret akey asecret : string)
    (targets : list string) (mode : option string) (cache batch : bool)
    : result NotifyTwitter :=
  match validate_regex ckey with
  | None => Raised TypeError
  | Some ckey =>
  match validate_regex csecret with
  | None => Raised TypeError
  | Some csecret =>
  match validate_regex akey with
  | None => Raised TypeError
  | Some akey =>
  match validate_regex asecret with
  | None => Raised TypeError
  | Some asecret =>
  match resolve_mode mode with
  | Raised e => Raised e
  | Returned mode =>
      let (kept, has_error) := load_targets (parse_list targets) in
      Returned
        {| ckey := ckey; csecret := csecret; akey := akey;
           asecret := asecret; mode := mode; cache := cache;
           batch := batch;
           targets := match has_error, kept with
                      | true, [] => None
                      | _, _ => Some kept
                      end;
           _whoami_cache := None; _user_cache := [];
           ratelimit_remaining := 1; ratelimit_reset := class_reset |}
  end end end end end.

(** [len(notifier)]: [len(self.targets)] raises on [None]. *)
Definition __len__ (o : NotifyTwitter) : result nat :=
  match targets o with
  | None => Raised TypeError
  | Some l =>
      let targets := List.length l in
      Returned (if (0 <? targets)%nat then targets else 1%nat)
  end.

(* ================================================================= *)
(** ** [url] and [parse_url] *)

(** A URL in parts.  Quoting, [urlencode] and the assembly of the string on
    one side, [NotifyBase.parse_url], [split_path] and [unquote] on the
    other, are code of the base class; the parts are what one side hands to
    the other. *)
Record url_parts : Type := {
  u_schema : string;
  u_host : string;
  u_path : list string;
  u_params : list (string * string)
}.

(** The result of [NotifyBase.parse_url], with [fullpath] already split. *)
Record parsed_url : Type := {
  schema : string;
  host : string;
  user : option string;
  tokens : list string;
  qsd : list (string * string)
}.

Definition base_parse_url (u : url_parts) : parsed_url :=
  {| schema := u_schema u; host := u_host u; user := None;
     tokens := u_path u; qsd := u_params u |}.

(** The keyword arguments [parse_url] returns for the constructor. *)
Record kwargs : Type := {
  k_ckey : string;
  k_csecret : option string;
  k_akey : option string;
  k_asecret : option string;
  k_mode : option string;
  k_targets : list string;
  k_cache : option bool;
  k_batch : bool
}.

Fixpoint qsd_get (k : string) (q : list (string * string)) : option string :=
  match q with
  | [] => None
  | (k', v) :: q' => if String.eqb k k' then Some v else qsd_get k q'
  end.

(** [params.update(extra)] *)
Fixpoint params_set (k v : string) (q : list (string * string))
    : list (string * string) :=
  match q with
  | [] => [(k, v)]
  | (k', v') :: q' =>
      if String.eqb k k' then (k', v) :: q' else (k', v') :: params_set k v q'
  end.

Definition params_update (q extra : list (string * string))
    : list (string * string) :=
  fold_left (fun acc kv => params_set (fst kv) (snd kv) acc) extra q.

Definition yes_no (b : bool) : string := if b then "yes" else "no".

Section Url.

(** Helpers of the base class and of utils.parse that [url] and
    [parse_url] call. *)
Variable url_parameters : NotifyTwitter -> list (string * string).
Variable parse_bool : string -> bool -> bool.

Definition url (o : NotifyTwitter) : url_parts :=
  let params :=
    [("mode", mode_value (mode o)); ("batch", yes_no (batch o));
     ("cache", yes_no (cache o))] in
  let params := params_update params (url_parameters o) in
  {| u_schema := "x";
     u_host := ckey o;
     u_path :=
       [csecret o; akey o; asecret o] ++
       match targets o with
       | Some (t :: ts) => map (fun target => "@" ++ target)%string (t :: ts)
       | _ => []
       end;
     u_params := params |}.

(** [tokens.pop(0) if tokens else None] *)
Definition pop0 (tokens : list string) : option string * list string :=
  match tokens with
  | [] => (None, [])
  | t :: rest => (Some t, rest)
  end.

Definition nonempty_param (k : string) (q : list (string * string))
    : option string :=
  match qsd_get k q with
  | Some v => if String.eqb v "" then None else Some v
  | None => None
  end.

(** The part of [parse_url] after the call of the base class. *)
Definition parse_url (results : parsed_url) : kwargs :=
  let tokens := tokens results in
  let (csecret, tokens) := pop0 tokens in
  let (akey, tokens) := pop0 tokens in
  let (asecret, tokens) := pop0 tokens in
  {| k_ckey := host results;
     k_csecret := csecret;
     k_akey := akey;
     k_asecret := asecret;
     k_mode :=
       match nonempty_param "mode" (qsd results) with
       | Some m => Some m
       | None =>
           if String.prefix "tweet" (schema results)
           then Some (mode_value TWEET) else None
       end;
     k_targets :=
       match user results with
       | Some u => if String.eqb u "" then [] else [u]
       | None => []
       end ++ tokens ++
       match nonempty_param "to" (qsd results) with
       | Some t => parse_list [t]
       | None => []
       end;
     k_cache :=
       match nonempty_param "cache" (qsd results) with
       | Some c => Some (parse_bool c true)
       | None => None
       end;
     k_batch :=
       match qsd_get "batch" (qsd results) with
       | Some b => parse_bool b false
       | None => true
       end |}.

(** Instantiating the plugin from the keyword arguments; a missing secret
    is [validate_regex(None)], which fails like an empty one. *)
Definition instantiate (class_reset : Z) (k : kwargs)
    : result NotifyTwitter :=
  match k_csecret k, k_akey k, k_asecret k with
  | Some csecret, Some akey, Some asecret =>
      __init__ class_reset (k_ckey k) csecret akey asecret (k_targets k)
           (k_mode k)
           (match k_cache k with Some c => c | None => true end)
           (k_batch k)
  | _, _, _ => Raised TypeError
  end.

End Url.

(* ================================================================= *)
(** ** Vocabulary of the statements *)

Definition wait_of (s : state) : option Z :=
  ratelimit_wait (self s) (clock s).

Definition delay (w : option Z) : Z :=
  match w with Some d => d | None => 0 end.

Definition is_log (e : event) : bool :=
  match e with Log _ _ => true | _ => false end.

Definition body_of (r : response) : json :=
  match content r with Some j => j | None => JDict [] end.

(** What the inner [try] of [_fetch] leaves of the notifier, and how it
    ends. *)
Definition captured (r : response) (o : NotifyTwitter)
    : result unit * NotifyTwitter :=
  match py_int (x_rate_limit_remaining r) with
  | Raised e => (Raised e, o)
  | Returned v =>
      match py_int (x_rate_limit_reset r) with
      | Raised e => (Raised e, set_remaining v o)
      | Returned t =>
          match fromtimestamp t with
          | Raised e => (Raised e, set_remaining v o)
          | Returned d => (Returned tt, set_reset d (set_remaining v o))
          end
      end
  end.

(** How [_fetch] settles what the remote end did: its result, the notifier
    it leaves and the lines it logs. *)
Definition settle (out : outcome) (o : NotifyTwitter)
    : result (bool * json) * NotifyTwitter * list event :=
  match out with
  | Fails RequestException =>
      (Returned (false, JDict []), o,
       [Log Warning "Exception received when sending Twitter"])
  | Fails OSError =>
      (Returned (false, JDict []), o, [Log Warning "An I/O error occurred"])
  | Fails e => (Raised e, o, [])
  | Replied r =>
      if negb (status_code r =? 200) then
        (Returned (false, body_of r), o,
         [Log Warning "Failed to send Twitter"])
      else
        match captured r o with
        | (Returned _, o') | (Raised TypeError, o')
        | (Raised ValueError, o') => (Returned (true, body_of r), o', [])
        | (Raised OSError, o') =>
            (Returned (false, body_of r), o',
             [Log Warning "An I/O error occurred"])
        | (Raised RequestException, o') =>
            (Returned (false, body_of r), o',
             [Log Warning "Exception received when sending Twitter"])
        | (Raised e, o') => (Raised e, o', [])
        end
  end.

(** The notifier with its two rate-limit fields blanked: two notifiers
    with the same image differ in those fields at most. *)
Definition unrated (o : NotifyTwitter) : NotifyTwitter :=
  set_reset 0 (set_remaining 0 o).


(* ================================================================= *)
(** ** Concrete notifiers, attachments and remote ends *)

Definition bot (m : TwitterMessageMode) (b : bool)
    (handles : option (list string)) : NotifyTwitter :=
  {| ckey := "ck"; csecret := "cs"; akey := "ak"; asecret := "as";
     mode := m; cache := true; batch := b; targets := handles;
     _whoami_cache := None; _user_cache := [];
     ratelimit_remaining := 1; ratelimit_reset := 0 |}.

(** A process that has issued nothing yet, in November 2023. *)
Definition boot (o : NotifyTwitter) : state :=
  {| self := o; clock := 1700000000 * second; trace := [] |}.

Definition reply (status : Z) (body : json) (remaining reset : option string)
    : outcome * N :=
  (Replied {| status_code := status; content := Some body;
              x_rate_limit_remaining := remaining;
              x_rate_limit_reset := reset |}, 0%N).

Definition image (mime file : string) : attachment :=
  {| accessible := true; mimetype := mime; name := file;
     path := ("/tmp/" ++ file)%string; openable := true |}.

Definition uploaded (id : Z) (mime : string) : descriptor :=
  {| media_id := JInt id; file_name := "image"; file_mime := mime;
     file_path := "/tmp/image" |}.


(** A remote end that accepts every call and reports an exhausted quota
    without a reset header. *)
Definition net_no_reset : nat -> request -> outcome * N :=
  fun _ _ => reply 200 (JDict []) (Some "0") None.

(** A remote end that accepts every call and sends both headers. *)
Definition net_quota : nat -> request -> outcome * N :=
  fun _ _ => reply 200 (JDict []) (Some "14") (Some "1700000900").

(** Three uploads are accepted, the first tweet is posted, the second is
    refused with an error list whose entry is a string; [net_refusing]
    refuses it with the documented error objects instead. *)
Definition net_odd_errors : nat -> request -> outcome * N :=
  fun n _ =>
    match n with
    | 0%nat | 1%nat | 2%nat =>
        reply 200 (JDict [("media_id", JInt (Z.of_nat n + 1))]) None None
    | 4%nat => reply 403 (JDict [("errors", JList [JStr "Forbidden"])])
                     None None
    | _ => reply 200 (JDict [("id_str", JStr "1")]) None None
    end.

Definition net_refusing : nat -> request -> outcome * N :=
  fun n _ =>
    match n with
    | 0%nat | 1%nat | 2%nat =>
        reply 200 (JDict [("media_id", JInt (Z.of_nat n + 1))]) None None
    | 4%nat =>
        reply 403
          (JDict [("errors",
                   JList [JDict [("code", JInt 187);
                                 ("message", JStr "Status is a duplicate.")]])])
          None None
    | _ => reply 200 (JDict [("id_str", JStr "1")]) None None
    end.

Definition three_images : list attachment :=
  [image "image/png" "a.png"; image "image/png" "b.png";
   image "image/png" "c.png"].

(** The requests of a trace, in the order they were issued. *)
Fixpoint sent (tr : list event) : list request :=
  match tr with
  | [] => []
  | Request _ r :: tr' => r :: sent tr'
  | _ :: tr' => sent tr'
  end.

(** An answer that [_fetch] reports as a success: status 200, and headers
    whose capture ends normally or in one of the two swallowed errors. *)
Definition accepted (r : response) : bool :=
  (status_code r =? 200) &&
  match py_int (x_rate_limit_remaining r), py_int (x_rate_limit_reset r) with
  | Returned _, Returned t =>
      match fromtimestamp t with
      | Returned _ | Raised ValueError => true
      | Raised _ => false
      end
  | _, _ => true
  end.

(** An outcome after which [_fetch] returns rather than raises. *)
Definition handled (out : outcome) : bool :=
  match out with
  | Fails RequestException | Fails OSError => true
  | Fails _ => false
  | Replied r =>
      negb (status_code r =? 200) ||
      match py_int (x_rate_limit_remaining r),
            py_int (x_rate_limit_reset r) with
      | Returned _, Returned t =>
          match fromtimestamp t with
          | Raised OverflowError => false
          | _ => true
          end
      | _, _ => true
      end
  end.

(** [c] only appends to the trace, and what it appends satisfies [P]. *)
Definition adds {A} (P : list event -> Prop) (c : M A) : Prop :=
  forall s, exists evs, trace (snd (c s)) = trace s ++ evs /\ P evs.

(** A stretch of trace in which every request comes directly after a
    throttle step. *)
Inductive paced : list event -> Prop :=
  | paced_nil : paced []
  | paced_log lvl msg evs : paced evs -> paced (Log lvl msg :: evs)
  | paced_call w t r evs :
      paced evs -> paced (Throttle w :: Request t r :: evs).

(** The two requests of a direct message to oneself. *)
Definition whoami_request : request :=
  {| r_url := twitter_whoami; r_method := GET; r_body := Data PNone |}.

Definition dm_request (recipient_id : json) (text : string) : request :=
  {| r_url := twitter_dm; r_method := POST;
     r_body := JsonData (PEvent recipient_id text None) |}.




(** The lookup of one batch of handles. *)
Definition lookup_request (names : list string) : request :=
  {| r_url := twitter_lookup; r_method := POST;
     r_body := Data (PScreenName names) |}.

(** The entries a lookup answer contributes: those of an accepted answer
    whose body is a list. *)
Definition answer_entries (out : outcome) : list json :=
  match out with
  | Replied r =>
      if accepted r then
        match body_of r with
        | JList entries => entries
        | _ => []
        end
      else []
  | Fails _ => []
  end.

(** The answers to the batches, merged in order into [results]; the first
    batch is request number [n]. *)
Fixpoint merged (net : nat -> request -> outcome * N) (n : nat)
    (batches : list (list string)) (results : pydict) : pydict :=
  match batches with
  | [] => results
  | names :: rest =>
      merged net (S n) rest
        (fold_left record_entry
           (answer_entries (fst (net n (lookup_request names)))) results)
  end.

(** A remote end that is down. *)
Definition net_down : nat -> request -> outcome * N :=
  fun _ _ => (Fails RequestException, 0%N).

(** A dict holds each key once. *)
Definition wf_dict (d : pydict) : Prop := NoDup (map fst d).

(** A handle as [url] writes it. *)
Definition at_handle (target : string) : string := ("@" ++ target)%string.

(** Stand-ins for the two helpers of [url] and [parse_url], for the
    concrete runs. *)
Definition yes_no_bool (arg : string) (default : bool) : bool :=
  if String.eqb arg "yes" then true
  else if String.eqb arg "no" then false
  else default.

Definition common_parameters (o : NotifyTwitter) : list (string * string) :=
  [("verify", "yes"); ("overflow", "upstream")].

(** A remote end that knows alice. *)
Definition net_directory : nat -> request -> outcome * N :=
  fun _ _ =>
    reply 200
      (JList [JDict [("screen_name", JStr "alice"); ("id", JInt 7)]])
      (Some "14") (Some "1700000900").

(** A string that is empty or does not start with whitespace. *)
Definition starts_clean (s : string) : Prop :=
  match s with
  | EmptyString => True
  | String c _ => is_space c = false
  end.

(** Whether [_fetch] reports request number [n] as a success, and whether
    it does so for each of a run of requests starting at number [n]. *)
Definition succeeds (net : nat -> request -> outcome * N) (n : nat)
    (req : request) : bool :=
  match fst (net n req) with
  | Replied r => accepted r
  | Fails _ => false
  end.

Fixpoint all_succeed (net : nat -> request -> outcome * N) (n : nat)
    (reqs : list request) : bool :=
  match reqs with
  | [] => true
  | req :: rest => succeeds net n req && all_succeed net (S n) rest
  end.

Definition tweet_request (p : payload) : request :=
  {| r_url := twitter_tweet; r_method := POST; r_body := Data p |}.

Definition message_request (p : payload) (user_id : json) : request :=
  {| r_url := twitter_dm; r_method := POST;
     r_body := JsonData (set_recipient user_id p) |}.

Definition is_event (p : payload) : bool :=
  match p with PEvent _ _ _ => true | _ => false end.

Definition is_status (p : payload) : bool :=
  match p with PStatus _ _ => true | _ => false end.

(** The error details [_send_tweet] reads from the body of a refused
    tweet, outside the state monad. *)
Definition error_details (response : json) : result (list (json * json)) :=
  match subscript response "errors" with
  | Raised e =>
      if existsb (exn_eqb e) [KeyError; TypeError] then Returned []
      else Raised e
  | Returned errors =>
      match iterate errors with
      | Raised e =>
          if existsb (exn_eqb e) [KeyError; TypeError] then Returned []
          else Raised e
      | Returned entries =>
          match error_entries entries with
          | Raised e =>
              if existsb (exn_eqb e) [KeyError; TypeError] then Returned []
              else Raised e
          | Returned l => Returned l
          end
      end
  end.

(** An outcome whose body, when the call is reported as failed, has error
    details that can be read. *)
Definition readable (out : outcome) : bool :=
  match out with
  | Replied r =>
      accepted r ||
      match error_details (body_of r) with
      | Returned _ => true
      | Raised _ => false
      end
  | Fails _ => true
  end.

(** What a dispatch has no business changing: the secrets, the mode, the
    two flags and the targets. *)
Definition config (o : NotifyTwitter)
    : string * string * string * string * TwitterMessageMode * bool * bool
      * option (list string) :=
  (ckey o, csecret o, akey o, asecret o, mode o, cache o, batch o, targets o).

(** [c] takes every state to one related to it by [R]. *)
Definition keeps {A} (R : state -> state -> Prop) (c : M A) : Prop :=
  forall s, R s (snd (c s)).

(** The notifier's configuration is the same and the clock has not gone
    back. *)
Definition settled (s s' : state) : Prop :=
  config (self s) = config (self s') /\ clock s <= clock s'.


(** The strings [s.startswith] accepts: the prefixes of [s], the empty one
    first. *)
Fixpoint prefixes (s : string) : list string :=
  match s with
  | EmptyString => [EmptyString]
  | String c s' => EmptyString :: map (String c) (prefixes s')
  end.

(** The recipients a direct message goes to: the account itself when the
    notifier has no handles, the resolved handles otherwise. *)
Definition recipients (net : nat -> request -> outcome * N)
    (handles : list string) (lazy : bool) : M pydict :=
  match handles with
  | [] => _whoami net lazy
  | _ => _user_lookup net handles lazy
  end.

(** A remote end that accepts every call, names the account and reports
    its quota. *)
Definition net_account : nat -> request -> outcome * N :=
  fun _ _ =>
    reply 200 (JDict [("id", JInt 7); ("screen_name", JStr "bot")])
          (Some "14") (Some "1700000900").

(** A remote end that accepts every call and reports an exhausted quota
    that is restored fifteen minutes after [boot]. *)
Definition net_exhausted : nat -> request -> outcome * N :=
  fun _ _ => reply 200 (JDict []) (Some "0") (Some "1700000900").

(** A remote end whose answers have a body that does not parse. *)
Definition net_garbled : nat -> request -> outcome * N :=
  fun _ _ =>
    (Replied {| status_code := 200; content := None;
                x_rate_limit_remaining := None;
                x_rate_limit_reset := None |}, 0%N).
(* ================================================================= *)
(** * Proofs *)

Unset Implicit Arguments.

(** ** The gateway in closed form *)

Lemma requests_of_app (a b : list event) :
  requests_of (a ++ b) = requests_of a ++ requests_of b.
Proof. apply filter_app. Qed.

Lemma capture_rate_limit_eq (r : response) (s : state) :
  capture_rate_limit r s =
    (fst (captured r (self s)),
     {| self := snd (captured r (self s)); clock := clock s;
        trace := trace s |}).
Proof.
  unfold capture_rate_limit, captured, bind, lift, modify_self.
  destruct s as [o c tr]; simpl.
  destruct (py_int (x_rate_limit_remaining r)); simpl; [|reflexivity].
  destruct (py_int (x_rate_limit_reset r)); simpl; [|reflexivity].
  destruct (fromtimestamp a0); reflexivity.
Qed.

Lemma fromtimestamp_raises t e :
  fromtimestamp t = Raised e ->
  e = OverflowError \/ e = OSError \/ e = ValueError.
Proof.
  unfold fromtimestamp.
  destruct (_ || _); [intros [= <-]; auto|].
  destruct (_ || _); [intros [= <-]; auto|].
  destruct (_ || _); [intros [= <-]; auto | discriminate].
Qed.

Section Gateway.

Variable net : nat -> request -> outcome * N.

Lemma _fetch_open_fails url p m j e s :
  fetch_data p j = Raised e -> _fetch net url p m j s = (Raised e, s).
Proof.
  intros H. unfold _fetch, bind, lift. rewrite H. reflexivity.
Qed.

(** The part of [_fetch] that follows the call of [requests]. *)
Lemma settle_eq (out : outcome) (s : state) :
  match out with
  | Replied r =>
      if negb (status_code r =? 200) then
        (log Warning "Failed to send Twitter" ;; ret (false, body_of r))
      else
        fetch_handlers (body_of r)
          (try_except (capture_rate_limit r) [TypeError; ValueError]
                      (ret tt) ;; ret (true, body_of r))
  | Fails e => fetch_handlers (JDict []) (raise e)
  end s =
  (fst (fst (settle out (self s))),
   {| self := snd (fst (settle out (self s))); clock := clock s;
      trace := trace s ++ snd (settle out (self s)) |}).
Proof.
  destruct s as [o c tr]. destruct out as [r|e]; simpl.
  - destruct (negb (status_code r =? 200)); simpl.
    + reflexivity.
    + unfold fetch_handlers, try_except, bind, ret, log, emit.
      rewrite capture_rate_limit_eq. simpl.
      destruct (captured r o) as [[[]|e] o']; simpl.
      * rewrite app_nil_r. reflexivity.
      * destruct e; simpl; rewrite ?app_nil_r; reflexivity.
  - unfold fetch_handlers, try_except, raise, bind, ret, log, emit.
    destruct e; simpl; rewrite ?app_nil_r; reflexivity.
Qed.

(** [_fetch] throttles, issues its one request, and settles the answer. *)
Lemma _fetch_unfold url p m j data s :
  fetch_data p j = Returned data ->
  let t := clock s + delay (wait_of s) in
  let req := {| r_url := url; r_method := m; r_body := data |} in
  let out := net (List.length (requests_of (trace s))) req in
  _fetch net url p m j s =
    (fst (fst (settle (fst out) (self s))),
     {| self := snd (fst (settle (fst out) (self s)));
        clock := t + Z.of_N (snd out);
        trace := trace s ++ Throttle (wait_of s) :: Request t req
                         :: snd (settle (fst out) (self s)) |}).
Proof.
  intros H t req out. subst t req out.
  unfold _fetch, bind, lift. rewrite H.
  unfold get_self, get_clock, throttle, bind, emit, sleep, ret, perform.
  fold (wait_of s).
  assert (Hreq : forall w,
    requests_of (trace s ++ [Throttle w]) = requests_of (trace s)).
  { intros w. rewrite requests_of_app. simpl. apply app_nil_r. }
  fold (body_of).
  destruct (wait_of s) as [w|]; simpl; rewrite Hreq;
    destruct (net _ _) as [out took]; simpl;
    (etransitivity; [apply settle_eq|]); simpl;
    rewrite <- !app_assoc, ?Z.add_0_r; reflexivity.
Qed.


Lemma captured_unrated r o : unrated (snd (captured r o)) = unrated o.
Proof.
  unfold captured.
  destruct (py_int (x_rate_limit_remaining r)); [|reflexivity].
  destruct (py_int (x_rate_limit_reset r)); [|reflexivity].
  destruct (fromtimestamp a0); reflexivity.
Qed.

Lemma settle_unrated out o : unrated (snd (fst (settle out o))) = unrated o.
Proof.
  destruct out as [r|e]; simpl.
  - destruct (negb (status_code r =? 200)); [reflexivity|].
    pose proof (captured_unrated r o) as H.
    destruct (captured r o) as [[[]|e] o']; simpl in *; [exact H|].
    destruct e; exact H.
  - destruct e; reflexivity.
Qed.

Lemma settle_logs out o : forallb is_log (snd (settle out o)) = true.
Proof.
  destruct out as [r|e]; simpl.
  - destruct (negb (status_code r =? 200)); [reflexivity|].
    destruct (captured r o) as [[[]|e] o']; [reflexivity|].
    destruct e; reflexivity.
  - destruct e; reflexivity.
Qed.

Lemma ratelimit_wait_some o now d :
  ratelimit_wait o now = Some d <->
  ratelimit_remaining o = 0 /\ now < ratelimit_reset o /\
  d = ratelimit_reset o - now + 500000.
Proof.
  unfold ratelimit_wait. change (second / 2) with 500000.
  destruct (ratelimit_remaining o =? 0) eqn:E0;
    [apply Z.eqb_eq in E0 | apply Z.eqb_neq in E0].
  - destruct (now <? ratelimit_reset o) eqn:E1;
      [apply Z.ltb_lt in E1 | apply Z.ltb_ge in E1].
    + split; [intros [= <-]; auto | intros (_ & _ & ->); reflexivity].
    + split; [discriminate | intros (_ & Hlt & _); lia].
  - split; [discriminate | intros (H & _); contradiction].
Qed.

Lemma ratelimit_wait_none o now :
  ratelimit_wait o now = None <->
  ~ (ratelimit_remaining o = 0 /\ now < ratelimit_reset o).
Proof.
  destruct (ratelimit_wait o now) as [d|] eqn:E.
  - apply ratelimit_wait_some in E. destruct E as (H0 & H1 & _).
    split; [discriminate | intros H; exfalso; apply H; auto].
  - split; [|reflexivity]. intros _ (H0 & H1).
    assert (ratelimit_wait o now =
            Some (ratelimit_reset o - now + 500000)) as H
      by (apply ratelimit_wait_some; auto).
    congruence.
Qed.

(** After an answer: the notifier [_fetch] leaves and its result are those
    [settle] computes. *)
Lemma _fetch_replied url p m j data s r took :
  fetch_data p j = Returned data ->
  net (List.length (requests_of (trace s)))
      {| r_url := url; r_method := m; r_body := data |} = (Replied r, took) ->
  fst (_fetch net url p m j s) = fst (fst (settle (Replied r) (self s)))
  /\ self (snd (_fetch net url p m j s)) =
       snd (fst (settle (Replied r) (self s)))
  /\ trace (snd (_fetch net url p m j s)) =
       trace s ++ Throttle (wait_of s)
               :: Request (clock s + delay (wait_of s))
                    {| r_url := url; r_method := m; r_body := data |}
               :: snd (settle (Replied r) (self s)).
Proof.
  intros Hdata Hnet. rewrite (_fetch_unfold url p m j data s Hdata).
  cbv zeta. rewrite Hnet. simpl. auto.
Qed.

Lemma settle_rejected r o :
  status_code r <> 200 ->
  settle (Replied r) o =
    (Returned (false, body_of r), o, [Log Warning "Failed to send Twitter"]).
Proof.
  intros H. simpl. apply Z.eqb_neq in H. rewrite H. reflexivity.
Qed.

Lemma settle_accepted r o :
  status_code r = 200 ->
  settle (Replied r) o =
    match captured r o with
    | (Returned _, o') | (Raised TypeError, o')
    | (Raised ValueError, o') => (Returned (true, body_of r), o', [])
    | (Raised OSError, o') =>
        (Returned (false, body_of r), o',
         [Log Warning "An I/O error occurred"])
    | (Raised RequestException, o') =>
        (Returned (false, body_of r), o',
         [Log Warning "Exception received when sending Twitter"])
    | (Raised e, o') => (Raised e, o', [])
    end.
Proof.
  intros H. simpl. rewrite H. reflexivity.
Qed.

Lemma py_int_raises x e :
  py_int x = Raised e -> e = TypeError \/ e = ValueError.
Proof.
  unfold py_int. destruct x as [s|]; [|intros [= <-]; auto].
  destruct (let (neg, s0) :=
              match skip_blanks s with
              | String "-" s' => (true, s')
              | String "+" s' => (false, s')
              | _ => (false, skip_blanks s)
              end in
            match int_digits s0 0 false with
            | Some n =>
                if int_max_str_digits <? count_digits s0
                then Raised ValueError
                else Returned (if neg then - n else n)
            | None => Raised ValueError
            end) as [v|e'] eqn:E; [discriminate|].
  intros [= <-]. right.
  destruct (match skip_blanks s with
            | String "-" s' => (true, s')
            | String "+" s' => (false, s')
            | _ => (false, skip_blanks s)
            end) as [neg s0].
  destruct (int_digits s0 0 false); [|congruence].
  destruct (int_max_str_digits <? count_digits s0); congruence.
Qed.


(** C8, as amended.  When the remaining header is absent or is no
    integer, the notifier is left exactly as it was, whatever the status;
    so it is after an answer whose status is not 200, whatever the
    headers.  After an answer with status 200 whose remaining header is an
    integer, a reset header that is absent, is no integer, or holds an
    instant that cannot be converted leaves the reset instant as it was,
    and the remaining counter holds the header's value. *)
Theorem rate_limit_kept_on_bad_headers :
  forall url p m j s data r took,
    fetch_data p j = Returned data ->
    net (List.length (requests_of (trace s)))
        {| r_url := url; r_method := m; r_body := data |}
      = (Replied r, took) ->
    let s' := snd (_fetch net url p m j s) in
    (forall e, py_int (x_rate_limit_remaining r) = Raised e ->
               self s' = self s)
    /\ (status_code r <> 200 -> self s' = self s)
    /\ (status_code r = 200 ->
        forall v,
          py_int (x_rate_limit_remaining r) = Returned v ->
          (forall e,
             py_int (x_rate_limit_reset r) = Raised e ->
             self s' = set_remaining v (self s)
             /\ ratelimit_reset (self s') = ratelimit_reset (self s))
          /\ (forall t e,
                py_int (x_rate_limit_reset r) = Returned t ->
                fromtimestamp t = Raised e ->
                self s' = set_remaining v (self s)
                /\ ratelimit_reset (self s') = ratelimit_reset (self s))).
Proof.
  intros url p m j s data r took Hdata Hnet s'. subst s'.
  destruct (_fetch_replied url p m j data s r took Hdata Hnet)
    as (_ & Hself & _).
  rewrite Hself.
  assert (Hbad : status_code r <> 200 ->
                 snd (fst (settle (Replied r) (self s))) = self s).
  { intros H. rewrite (settle_rejected r (self s) H). reflexivity. }
  split; [|split].
  - intros e E1. destruct (Z.eq_dec (status_code r) 200) as [H200|H];
      [|exact (Hbad H)].
    rewrite (settle_accepted r (self s) H200). unfold captured. rewrite E1.
    destruct (py_int_raises _ _ E1) as [-> | ->]; reflexivity.
  - exact Hbad.
  - intros H200 v E1.
    rewrite (settle_accepted r (self s) H200). unfold captured. rewrite E1.
    split.
    + intros e E2. rewrite E2.
      destruct (py_int_raises _ _ E2) as [-> | ->]; split; reflexivity.
    + intros t e E2 E3. rewrite E2, E3.
      destruct (fromtimestamp_raises _ _ E3) as [-> | [-> | ->]];
        split; reflexivity.
Qed.

End Gateway.


(** A reset instant beyond the years of [datetime] is swallowed; one that
    [gmtime] rejects turns an accepted tweet into a reported failure; one
    that does not fit [time_t] is raised.  The counter is 14 each time. *)
Example reset_instant_out_of_range :
  let s := boot (bot TWEET true (Some [])) in
  let run reset :=
    _fetch (fun _ _ => reply 200 (JDict []) (Some "14") (Some reset))
           twitter_tweet (PStatus "hi" None) POST false s in
  fst (run "253402300800") = Returned (true, JDict [])
  /\ fst (run "1000000000000000000") = Returned (false, JDict [])
  /\ fst (run "9223372036854775808") = Raised OverflowError
  /\ ratelimit_remaining (self (snd (run "253402300800"))) = 14
  /\ ratelimit_remaining (self (snd (run "1000000000000000000"))) = 14
  /\ ratelimit_remaining (self (snd (run "9223372036854775808"))) = 14.
Proof. vm_compute. repeat split. Qed.


(** The amended C8 at work: the remaining header is missing. *)
Lemma rate_limit_kept_on_bad_headers_witness :
  let s := boot (bot TWEET true (Some [])) in
  let r := {| status_code := 200; content := None;
              x_rate_limit_remaining := None;
              x_rate_limit_reset := Some "1700000900" |} in
  let s' := snd (_fetch (fun _ _ => (Replied r, 0%N)) twitter_tweet
                        (PStatus "hi" None) POST false s) in
  py_int (x_rate_limit_remaining r) = Raised TypeError /\ self s' = self s.
Proof.
  intros s r s'. split; [reflexivity|].
  exact (proj1 (rate_limit_kept_on_bad_headers
                  (fun _ _ => (Replied r, 0%N)) twitter_tweet
                  (PStatus "hi" None) POST false s
                  (Data (PStatus "hi" None)) r 0%N
                  eq_refl eq_refl)
               TypeError eq_refl).
Defined.

(** C8 as stated fails: with the reset header missing, the update is a
    partial one.  The counter goes from 1 to the header's 0 while the
    reset instant stays. *)
Lemma missing_reset_overwrites_remaining :
  let s := boot (bot TWEET true (Some [])) in
  let s' := snd (_fetch net_no_reset twitter_tweet (PStatus "hi" None)
                        POST false s) in
  fst (net_no_reset 0%nat {| r_url := twitter_tweet; r_method := POST;
                            r_body := Data (PStatus "hi" None) |})
    = Replied {| status_code := 200; content := Some (JDict []);
                 x_rate_limit_remaining := Some "0";
                 x_rate_limit_reset := None |}
  /\ ratelimit_remaining (self s) = 1
  /\ ratelimit_remaining (self s') = 0
  /\ ratelimit_reset (self s') = ratelimit_reset (self s).
Proof. vm_compute. repeat split. Qed.

(* ================================================================= *)
(** ** BatchPlanner *)

(** C1 (a defect of the code).  With batching enabled, the plan for
    [PNG, GIF, PNG] is two groups, of sizes 2 and 1: the GIF is appended
    to the open group before the group is closed, so it shares the first
    group with the PNG before it.  The comment in [_send_tweet] promises
    that a GIF breaks the batches apart, which would give three groups. *)
Theorem plan_png_gif_png :
  plan true [uploaded 1 "image/png"; uploaded 2 "image/gif";
             uploaded 3 "image/png"]
    = [[JInt 1; JInt 2]; [JInt 3]]
  /\ map (@List.length json)
         (plan true [uploaded 1 "image/png"; uploaded 2 "image/gif";
                     uploaded 3 "image/png"])
     = [2%nat; 1%nat]
  /\ is_batchable "image/gif" = false.
Proof. vm_compute. repeat split. Qed.

(** What the planner does guarantee: the groups, in order, are the
    attachments in order; no group is empty or larger than the ceiling;
    without batching every group is a single attachment. *)
Lemma plan_loop_concat size attachments batches batch :
  List.concat (plan_loop size attachments batches batch) =
    List.concat batches ++ batch ++ map media_id attachments.
Proof.
  revert batches batch.
  induction attachments as [|a rest IH]; intros batches batch; simpl.
  - destruct batch; [rewrite !app_nil_r; reflexivity|].
    rewrite concat_app. simpl. rewrite !app_nil_r. reflexivity.
  - destruct (negb (is_batchable (file_mime a))
              || (size <=? List.length (batch ++ [media_id a]))%nat).
    + rewrite IH, concat_app. simpl. rewrite !app_nil_r, <- !app_assoc.
      reflexivity.
    + rewrite IH, <- !app_assoc. reflexivity.
Qed.

(** X1.  The groups of a plan, read in order, are the media identifiers of
    the attachments in order: nothing is lost, repeated or moved. *)
Lemma plan_concat batch attachments :
  List.concat (plan batch attachments) = map media_id attachments.
Proof. apply plan_loop_concat. Qed.

Lemma plan_loop_bounded size attachments batches batch :
  Forall (fun g => (1 <= List.length g <= size)%nat) batches ->
  (List.length batch < size)%nat ->
  Forall (fun g => (1 <= List.length g <= size)%nat)
         (plan_loop size attachments batches batch).
Proof.
  revert batches batch.
  induction attachments as [|a rest IH]; intros batches batch Hb Hlen; simpl.
  - destruct batch as [|x batch']; [exact Hb|].
    apply Forall_app. split; [exact Hb|].
    constructor; [simpl in *; lia | constructor].
  - assert (Hnew : List.length (batch ++ [media_id a]) =
                   S (List.length batch))
      by (rewrite length_app; simpl; lia).
    destruct (negb (is_batchable (file_mime a))
              || (size <=? List.length (batch ++ [media_id a]))%nat) eqn:E.
    + apply IH; [|simpl; lia].
      apply Forall_app. split; [exact Hb|].
      constructor; [lia | constructor].
    + apply IH; [exact Hb|].
      apply orb_false_elim in E. destruct E as [_ E].
      apply Nat.leb_gt in E. exact E.
Qed.

(** X2.  No group of a plan is empty, and none holds more than the
    ceiling: 4 identifiers with batching, 1 without. *)
Lemma plan_bounded batch attachments :
  Forall (fun g => (1 <= List.length g <= batch_size batch)%nat)
         (plan batch attachments).
Proof.
  apply plan_loop_bounded; [constructor|].
  destruct batch; simpl; unfold tweet_non_gif_images_batch; lia.
Qed.

Lemma plan_loop_unbatched attachments batches :
  plan_loop 1 attachments batches [] =
    batches ++ map (fun a => [media_id a]) attachments.
Proof.
  revert batches. induction attachments as [|a rest IH]; intros batches;
    simpl; [rewrite app_nil_r; reflexivity|].
  rewrite orb_true_r, IH, <- app_assoc. reflexivity.
Qed.

(** X3.  Without batching the plan is one group per attachment, whatever
    the MIME types. *)
Lemma plan_unbatched attachments :
  plan false attachments = map (fun a => [media_id a]) attachments.
Proof. apply plan_loop_unbatched. Qed.

Example plan_five_png :
  map (@List.length json)
      (plan true [uploaded 1 "image/png"; uploaded 2 "image/png";
                  uploaded 3 "image/png"; uploaded 4 "image/png";
                  uploaded 5 "image/png"])
    = [4%nat; 1%nat].
Proof. reflexivity. Qed.

(* ================================================================= *)
(** ** Aggregation of the sends *)

(** C3 (a defect of the code).  A dispatch in tweet mode with three
    sub-messages, the second refused with a body whose [errors] entry is a
    string: reading the error details calls [get] on the string, the
    [AttributeError] is not among the suppressed exceptions, and it leaves
    [send].  Five requests were issued (three uploads, two tweets); the
    third tweet was never attempted and no verdict is returned.  When the
    same tweet is refused with error objects, the dispatch returns false
    after all six requests. *)
Theorem odd_error_body_aborts_tweets :
  let s := boot (bot TWEET false (Some [])) in
  fst (send net_odd_errors "hi" three_images s) = Raised AttributeError
  /\ List.length (sent (trace (snd (send net_odd_errors "hi" three_images s))))
     = 5%nat
  /\ fst (send net_refusing "hi" three_images s) = Returned false
  /\ List.length (sent (trace (snd (send net_refusing "hi" three_images s))))
     = 6%nat.
Proof. vm_compute. repeat split. Qed.

(* ================================================================= *)
(** ** Construction *)

Lemma load_targets_kept l :
  fst (load_targets l) = [] <-> forall t, In t l -> IS_USER t = None.
Proof.
  induction l as [|x l IH]; simpl.
  - split; [intros _ t [] | reflexivity].
  - destruct (load_targets l) as [kept err]; simpl in *.
    destruct (IS_USER x) as [u|] eqn:E; simpl.
    + split; [discriminate|]. intros H.
      specialize (H x (or_introl eq_refl)). congruence.
    + rewrite IH. split.
      * intros H t [<-|Ht]; auto.
      * intros H t Ht. apply H. auto.
Qed.

Lemma load_targets_error l :
  snd (load_targets l) = true <-> exists t, In t l /\ IS_USER t = None.
Proof.
  induction l as [|x l IH]; simpl.
  - split; [discriminate | intros (t & [] & _)].
  - destruct (load_targets l) as [kept err]; simpl in *.
    destruct (IS_USER x) as [u|] eqn:E; simpl.
    + rewrite IH. split.
      * intros (t & Ht & Hn). exists t. auto.
      * intros (t & [<-|Ht] & Hn); [congruence | exists t; auto].
    + split; [|reflexivity]. intros _. exists x. auto.
Qed.

(** What a successful construction fixes of the object. *)
Lemma init_inv cr ck cs ak asec tg md ca ba o :
  __init__ cr ck cs ak asec tg md ca ba = Returned o ->
  validate_regex ck = Some (ckey o)
  /\ validate_regex cs = Some (csecret o)
  /\ validate_regex ak = Some (akey o)
  /\ validate_regex asec = Some (asecret o)
  /\ resolve_mode md = Returned (mode o)
  /\ cache o = ca /\ batch o = ba
  /\ targets o =
       match snd (load_targets (parse_list tg)),
             fst (load_targets (parse_list tg)) with
       | true, [] => None
       | _, kept => Some kept
       end
  /\ _whoami_cache o = None /\ _user_cache o = []
  /\ ratelimit_remaining o = 1 /\ ratelimit_reset o = cr.
Proof.
  unfold __init__.
  destruct (validate_regex ck); [|discriminate].
  destruct (validate_regex cs); [|discriminate].
  destruct (validate_regex ak); [|discriminate].
  destruct (validate_regex asec); [|discriminate].
  destruct (resolve_mode md); [|discriminate].
  destruct (load_targets (parse_list tg)) as [kept err].
  intros [= <-]. simpl. repeat split; auto.
  destruct err, kept; reflexivity.
Qed.

(** The invalid state is reached exactly when handles were supplied and
    every one of them was rejected. *)
Lemma init_targets_none cr ck cs ak asec tg md ca ba o :
  __init__ cr ck cs ak asec tg md ca ba = Returned o ->
  (targets o = None <->
   parse_list tg <> [] /\ forall t, In t (parse_list tg) -> IS_USER t = None).
Proof.
  intros H. apply init_inv in H.
  destruct H as (_ & _ & _ & _ & _ & _ & _ & Ht & _). rewrite Ht.
  pose proof (load_targets_kept (parse_list tg)) as Hk.
  pose proof (load_targets_error (parse_list tg)) as He.
  destruct (load_targets (parse_list tg)) as [kept err]; simpl in *.
  destruct err, kept; split; try discriminate; try reflexivity.
  - intros _. destruct He as [He _]. destruct (He eq_refl) as (t & Ht' & _).
    split; [intros E; rewrite E in Ht'; destruct Ht'|].
    apply Hk. reflexivity.
  - intros (_ & Hall). apply Hk in Hall. discriminate.
  - intros (Hne & Hall). destruct (parse_list tg) as [|x l]; [congruence|].
    assert (false = true) as E; [|discriminate E].
    apply He. exists x.
    split; [left; reflexivity | apply Hall; left; reflexivity].
  - intros (_ & Hall). apply Hk in Hall. discriminate.
Qed.

(** C10.  For a constructed notifier whose targets are a list, [len] is
    the number of targets, and 1 when there is none; for one constructed
    into the invalid state, which is when every supplied handle was
    rejected, [len] raises a [TypeError]. *)
Theorem len_of_constructed :
  forall cr ck cs ak asec tg md ca ba o,
    __init__ cr ck cs ak asec tg md ca ba = Returned o ->
    match targets o with
    | Some l =>
        __len__ o = Returned (if (0 <? List.length l)%nat
                              then List.length l else 1%nat)
    | None =>
        __len__ o = Raised TypeError
        /\ parse_list tg <> []
        /\ (forall t, In t (parse_list tg) -> IS_USER t = None)
    end.
Proof.
  intros cr ck cs ak asec tg md ca ba o H.
  pose proof (init_targets_none _ _ _ _ _ _ _ _ _ _ H) as Hn.
  unfold __len__. destruct (targets o) as [l|].
  - reflexivity.
  - split; [reflexivity|]. apply Hn. reflexivity.
Qed.

Lemma len_of_constructed_witness :
  __init__ 0 "ck" "cs" "ak" "as" ["@alice"; "bob"] None true true
    = Returned (bot DM true (Some ["alice"; "bob"]))
  /\ __len__ (bot DM true (Some ["alice"; "bob"])) = Returned 2%nat.
Proof.
  split; [reflexivity|].
  exact (len_of_constructed 0 "ck" "cs" "ak" "as" ["@alice"; "bob"] None
           true true (bot DM true (Some ["alice"; "bob"])) eq_refl).
Defined.

(* ================================================================= *)
(** ** Requests of a trace *)

Lemma sent_app (a b : list event) : sent (a ++ b) = sent a ++ sent b.
Proof.
  induction a as [|e a IH]; simpl; [reflexivity|].
  destruct e; simpl; rewrite IH; reflexivity.
Qed.

Lemma sent_logs (l : list event) : forallb is_log l = true -> sent l = [].
Proof.
  induction l as [|e l IH]; simpl; [reflexivity|].
  destruct e; simpl; try discriminate. exact IH.
Qed.

Lemma sent_length (tr : list event) :
  List.length (sent tr) = List.length (requests_of tr).
Proof.
  induction tr as [|e tr IH]; simpl; [reflexivity|].
  destruct e; simpl; rewrite ?IH; reflexivity.
Qed.

Lemma settle_of_accepted r o :
  accepted r = true ->
  settle (Replied r) o = (Returned (true, body_of r), snd (captured r o), []).
Proof.
  unfold accepted. intros H. apply andb_prop in H. destruct H as [H200 H].
  apply Z.eqb_eq in H200. rewrite (settle_accepted r o H200).
  unfold captured.
  destruct (py_int (x_rate_limit_remaining r)) as [v|e1] eqn:E1.
  - destruct (py_int (x_rate_limit_reset r)) as [t|e2] eqn:E2.
    + destruct (fromtimestamp t) as [d|e3]; [reflexivity|].
      destruct e3; try discriminate; reflexivity.
    + destruct (py_int_raises _ _ E2) as [-> | ->]; reflexivity.
  - destruct (py_int_raises _ _ E1) as [-> | ->]; reflexivity.
Qed.

Lemma settle_result out o :
  handled out = true ->
  fst (fst (settle out o)) =
    Returned (match out with
              | Replied r => (accepted r, body_of r)
              | Fails _ => (false, JDict [])
              end).
Proof.
  destruct out as [r|e]; simpl.
  - unfold accepted. destruct (status_code r =? 200); simpl; [|reflexivity].
    unfold captured.
    destruct (py_int (x_rate_limit_remaining r)) as [v|e1] eqn:E1.
    + destruct (py_int (x_rate_limit_reset r)) as [t|e2] eqn:E2.
      * destruct (fromtimestamp t) as [d|e3] eqn:E3; [reflexivity|].
        destruct (fromtimestamp_raises _ _ E3) as [-> | [-> | ->]];
          simpl; [discriminate | reflexivity | reflexivity].
      * destruct (py_int_raises _ _ E2) as [-> | ->]; reflexivity.
    + destruct (py_int_raises _ _ E1) as [-> | ->]; reflexivity.
  - destruct e; simpl; try discriminate; reflexivity.
Qed.

(* ================================================================= *)
(** ** Python dicts *)

Lemma pykey_eqb_eq a b : pykey_eqb a b = true <-> a = b.
Proof.
  destruct a, b; simpl; split; try discriminate; try reflexivity.
  - intros H. apply Z.eqb_eq in H. congruence.
  - intros [= ->]. apply Z.eqb_refl.
  - intros H. apply String.eqb_eq in H. congruence.
  - intros [= ->]. apply String.eqb_refl.
Qed.

Lemma pykey_eqb_refl a : pykey_eqb a a = true.
Proof. apply pykey_eqb_eq. reflexivity. Qed.

Lemma pykey_eqb_neq a b : pykey_eqb a b = false <-> a <> b.
Proof.
  split.
  - intros H E. apply pykey_eqb_eq in E. congruence.
  - intros H. destruct (pykey_eqb a b) eqn:E; [|reflexivity].
    apply pykey_eqb_eq in E. contradiction.
Qed.

Lemma dict_find_set_same k v d : dict_find k (dict_set k v d) = Some v.
Proof.
  induction d as [|[k' v'] d IH]; simpl.
  - rewrite pykey_eqb_refl. reflexivity.
  - destruct (pykey_eqb k k') eqn:E; simpl; rewrite E; auto.
Qed.

Lemma dict_find_set_other k k' v d :
  k <> k' -> dict_find k (dict_set k' v d) = dict_find k d.
Proof.
  intros Hne. induction d as [|[k2 v2] d IH]; simpl.
  - apply pykey_eqb_neq in Hne. rewrite Hne. reflexivity.
  - destruct (pykey_eqb k' k2) eqn:E; simpl.
    + apply pykey_eqb_eq in E. subst k2.
      apply pykey_eqb_neq in Hne. rewrite Hne. reflexivity.
    + rewrite IH. reflexivity.
Qed.

Lemma dict_mem_find k d : dict_mem k d = true <-> dict_find k d <> None.
Proof.
  induction d as [|[k' v'] d IH]; simpl.
  - split; [discriminate | congruence].
  - destruct (pykey_eqb k k'); simpl; [split; [discriminate | auto]|].
    exact IH.
Qed.

Lemma dict_set_keys k v d k' :
  In k' (map fst (dict_set k v d)) <-> k' = k \/ In k' (map fst d).
Proof.
  induction d as [|[k2 v2] d IH]; simpl.
  - split; [intros [H|[]]; auto | intros [H|[]]; auto].
  - destruct (pykey_eqb k k2) eqn:E; simpl.
    + apply pykey_eqb_eq in E. subst k2. intuition congruence.
    + rewrite IH. intuition congruence.
Qed.

Lemma wf_dict_set k v d : wf_dict d -> wf_dict (dict_set k v d).
Proof.
  unfold wf_dict. induction d as [|[k2 v2] d IH]; simpl; intros H.
  - constructor; [intros [] | constructor].
  - destruct (pykey_eqb k k2) eqn:E; simpl; [exact H|].
    inversion H as [|? ? Hn Hd]; subst. constructor; [|auto].
    rewrite dict_set_keys. intros [->|Hin]; [|contradiction].
    rewrite pykey_eqb_refl in E. discriminate.
Qed.

Lemma dict_find_notin k d : ~ In k (map fst d) -> dict_find k d = None.
Proof.
  induction d as [|[k2 v2] d IH]; simpl; [reflexivity|]. intros H.
  destruct (pykey_eqb k k2) eqn:E.
  - apply pykey_eqb_eq in E. subst. exfalso. auto.
  - apply IH. auto.
Qed.

Lemma dict_find_in k v d : dict_find k d = Some v -> In k (map fst d).
Proof.
  induction d as [|[k2 v2] d IH]; simpl; [discriminate|].
  destruct (pykey_eqb k k2) eqn:E; [|auto].
  apply pykey_eqb_eq in E. auto.
Qed.

Lemma dict_update_find_notin k d r :
  ~ In k (map fst r) -> dict_find k (dict_update d r) = dict_find k d.
Proof.
  unfold dict_update. revert d.
  induction r as [|[k2 v2] r IH]; intros d H; simpl; [reflexivity|].
  simpl in H. rewrite IH by tauto.
  apply dict_find_set_other. intros ->. tauto.
Qed.

(** [d.update(r)] holds every pair of [r]. *)
Lemma dict_update_find k v d r :
  wf_dict r -> dict_find k r = Some v ->
  dict_find k (dict_update d r) = Some v.
Proof.
  unfold wf_dict, dict_update. revert d.
  induction r as [|[k2 v2] r IH]; intros d Hwf H; simpl in *;
    [discriminate|].
  inversion Hwf as [|? ? Hn Hr]; subst.
  destruct (pykey_eqb k k2) eqn:E.
  - apply pykey_eqb_eq in E. subst k2. injection H as <-.
    fold (dict_update (dict_set k v2 d) r).
    rewrite dict_update_find_notin by exact Hn.
    apply dict_find_set_same.
  - apply IH; assumption.
Qed.

Lemma wf_record_entry results entry :
  wf_dict results -> wf_dict (record_entry results entry).
Proof.
  intros H. unfold record_entry.
  destruct (subscript entry "id"); [|exact H].
  destruct (subscript entry "screen_name"); [|exact H].
  destruct (as_key a0); [|exact H].
  apply wf_dict_set. exact H.
Qed.

Lemma wf_record_entries entries results :
  wf_dict results -> wf_dict (fold_left record_entry entries results).
Proof.
  revert results. induction entries as [|e entries IH]; intros results H;
    simpl; [exact H|].
  apply IH. apply wf_record_entry. exact H.
Qed.

(** Filtering by key keeps the bindings of the keys that pass. *)
Lemma dict_find_filter (f : pykey -> bool) k d :
  f k = true ->
  dict_find k (filter (fun kv => f (fst kv)) d) = dict_find k d.
Proof.
  intros Hf. induction d as [|[k2 v2] d IH]; simpl; [reflexivity|].
  destruct (pykey_eqb k k2) eqn:E.
  - apply pykey_eqb_eq in E. subst k2. rewrite Hf. simpl.
    rewrite pykey_eqb_refl. reflexivity.
  - destruct (f k2); simpl; rewrite ?E; exact IH.
Qed.

Section Dispatching.

Variable net : nat -> request -> outcome * N.

Lemma _fetch_sent url p m j data s :
  fetch_data p j = Returned data ->
  sent (trace (snd (_fetch net url p m j s))) =
    sent (trace s) ++ [{| r_url := url; r_method := m; r_body := data |}].
Proof.
  intros H. rewrite (_fetch_unfold net url p m j data s H). simpl.
  rewrite sent_app. simpl. rewrite (sent_logs _ (settle_logs _ _)).
  reflexivity.
Qed.

Lemma _fetch_unrated url p m j s :
  unrated (self (snd (_fetch net url p m j s))) = unrated (self s).
Proof.
  destruct (fetch_data p j) as [data|e] eqn:H.
  - rewrite (_fetch_unfold net url p m j data s H). simpl.
    apply settle_unrated.
  - rewrite (_fetch_open_fails net url p m j e s H). reflexivity.
Qed.

Lemma settle_log_shape out o :
  snd (settle out o) = [] \/ exists lvl msg, snd (settle out o) = [Log lvl msg].
Proof.
  destruct out as [r|e]; simpl.
  - destruct (negb (status_code r =? 200)); simpl; [eauto|].
    destruct (captured r o) as [[[]|e] o']; simpl; [auto|].
    destruct e; simpl; eauto.
  - destruct e; simpl; eauto.
Qed.

(** *** Everything the plugin appends to the trace *)

Section Adds.

Variable P : list event -> Prop.
Hypothesis P_nil : P [].
Hypothesis P_app : forall a b, P a -> P b -> P (a ++ b).
Hypothesis P_log : forall lvl msg, P [Log lvl msg].
Hypothesis P_call : forall w t r, P [Throttle w; Request t r].

Lemma adds_still {A} (c : M A) :
  (forall s, trace (snd (c s)) = trace s) -> adds P c.
Proof.
  intros H s. exists []. rewrite app_nil_r. auto.
Qed.

Lemma adds_ret {A} (a : A) : adds P (ret a).
Proof. apply adds_still. reflexivity. Qed.

Lemma adds_raise {A} (e : exn) : adds P (@raise A e).
Proof. apply adds_still. reflexivity. Qed.

Lemma adds_lift {A} (r : result A) : adds P (lift r).
Proof. apply adds_still. reflexivity. Qed.

Lemma adds_get_self : adds P get_self.
Proof. apply adds_still. reflexivity. Qed.

Lemma adds_modify_self f : adds P (modify_self f).
Proof. apply adds_still. reflexivity. Qed.

Lemma adds_log lvl msg : adds P (log lvl msg).
Proof. intros s. exists [Log lvl msg]. auto. Qed.

Lemma adds_bind {A B} (c : M A) (k : A -> M B) :
  adds P c -> (forall a, adds P (k a)) -> adds P (bind c k).
Proof.
  intros Hc Hk s. unfold bind. specialize (Hc s).
  destruct (c s) as [[a|e] s1]; simpl in Hc; destruct Hc as (e1 & H1 & P1).
  - destruct (Hk a s1) as (e2 & H2 & P2). exists (e1 ++ e2).
    rewrite H2, H1, app_assoc. auto.
  - exists e1. auto.
Qed.

Lemma adds_try_except {A} (c : M A) classes (h : M A) :
  adds P c -> adds P h -> adds P (try_except c classes h).
Proof.
  intros Hc Hh s. unfold try_except. specialize (Hc s).
  destruct (c s) as [[a|e] s1]; simpl in Hc; destruct Hc as (e1 & H1 & P1).
  - exists e1. auto.
  - destruct (existsb (exn_eqb e) classes).
    + destruct (Hh s1) as (e2 & H2 & P2). exists (e1 ++ e2).
      rewrite H2, H1, app_assoc. auto.
    + exists e1. auto.
Qed.

Lemma adds__fetch url p m j : adds P (_fetch net url p m j).
Proof.
  intros s. destruct (fetch_data p j) as [data|e] eqn:H.
  - rewrite (_fetch_unfold net url p m j data s H). simpl.
    eexists. split; [reflexivity|].
    change (P ([Throttle (wait_of s);
                Request (clock s + delay (wait_of s))
                  {| r_url := url; r_method := m; r_body := data |}] ++
               snd (settle
                      (fst (net (List.length (requests_of (trace s)))
                             {| r_url := url; r_method := m;
                                r_body := data |})) (self s)))).
    apply P_app; [apply P_call|].
    destruct (settle_log_shape
                (fst (net (List.length (requests_of (trace s)))
                        {| r_url := url; r_method := m; r_body := data |}))
                (self s)) as [-> | (lvl & msg & ->)]; auto.
  - rewrite (_fetch_open_fails net url p m j e s H). exists [].
    rewrite app_nil_r. auto.
Qed.

Create HintDb adds.
#[local] Hint Resolve adds_ret adds_raise adds_lift adds_get_self
  adds_modify_self adds_log adds__fetch : adds.

Ltac adds_step :=
  first [ apply adds_bind; [|intros ?]
        | apply adds_try_except
        | progress auto with adds ].

Lemma adds_cache_results results : adds P (cache_results results).
Proof. apply adds_modify_self. Qed.

Lemma adds__whoami lazy : adds P (_whoami net lazy).
Proof.
  unfold _whoami. apply adds_bind; [auto with adds|]. intros o.
  destruct (if lazy then _whoami_cache o else None); [auto with adds|].
  apply adds_bind; [auto with adds|]. intros [ok response].
  destruct ok; [|auto with adds].
  repeat adds_step.
Qed.

Lemma adds_lookup_loop batches results :
  adds P (lookup_loop net batches results).
Proof.
  revert results. induction batches as [|names rest IH]; intros results;
    simpl; [auto with adds|].
  apply adds_bind; [auto with adds|]. intros [ok response].
  destruct ok; [destruct response|]; apply IH.
Qed.

Lemma adds__user_lookup handles lazy : adds P (_user_lookup net handles lazy).
Proof.
  unfold _user_lookup. apply adds_bind; [auto with adds|]. intros o.
  destruct (match lazy, _user_cache o with
            | true, _ :: _ => _
            | _, _ => _
            end) as [results names].
  destruct names; [auto with adds|].
  apply adds_bind; [apply adds_lookup_loop|]. intros r.
  apply adds_bind; [apply adds_cache_results | auto with adds].
Qed.

Lemma adds_log_all lvl msg n : adds P (log_all lvl msg n).
Proof.
  induction n; simpl; [auto with adds|].
  apply adds_bind; auto with adds.
Qed.

Lemma adds_tweet_errors response : adds P (tweet_errors response).
Proof. unfold tweet_errors. repeat adds_step. Qed.

Lemma adds_tweet_loop payloads has_error :
  adds P (tweet_loop net payloads has_error).
Proof.
  revert has_error. induction payloads as [|p rest IH]; intros has_error;
    simpl; [auto with adds|].
  apply adds_bind; [auto with adds|]. intros [ok response].
  destruct ok; simpl.
  - apply adds_bind; [auto with adds|]. intros _.
    apply adds_bind; [auto with adds|]. intros _. apply IH.
  - apply adds_bind; [apply adds_tweet_errors|]. intros errors.
    apply adds_bind; [apply adds_log_all|]. intros _. apply IH.
Qed.

Lemma adds__send_tweet body attachments :
  adds P (_send_tweet net body attachments).
Proof.
  unfold _send_tweet. apply adds_bind; [auto with adds|]. intros o.
  apply adds_bind; [apply adds_tweet_loop | auto with adds].
Qed.

Lemma adds_dm_targets_loop p targets has_error :
  adds P (dm_targets_loop net p targets has_error).
Proof.
  revert has_error. induction targets as [|[k id] rest IH];
    intros has_error; simpl; [auto with adds|].
  apply adds_bind; [auto with adds|]. intros [ok response].
  destruct ok; simpl; [|apply IH].
  apply adds_bind; [auto with adds|]. intros _. apply IH.
Qed.

Lemma adds_dm_loop payloads targets has_error :
  adds P (dm_loop net payloads targets has_error).
Proof.
  revert has_error. induction payloads as [|p rest IH]; intros has_error;
    simpl; [auto with adds|].
  apply adds_bind; [apply adds_dm_targets_loop|]. intros e. apply IH.
Qed.

Lemma adds__send_dm body attachments :
  adds P (_send_dm net body attachments).
Proof.
  unfold _send_dm. apply adds_bind; [auto with adds|]. intros o.
  destruct (targets o) as [handles|]; [|auto with adds].
  apply adds_bind.
  - destruct handles; [apply adds__whoami | apply adds__user_lookup].
  - intros targets. destruct targets.
    + apply adds_bind; auto with adds.
    + apply adds_bind; [apply adds_dm_loop | auto with adds].
Qed.

Lemma adds_upload_loop attach attachments :
  adds P (upload_loop net attach attachments).
Proof.
  revert attachments. induction attach as [|[no a] rest IH];
    intros attachments; simpl; [auto with adds|].
  destruct (negb (accessible a)); [apply adds_bind; auto with adds|].
  destruct (negb (is_image (mimetype a))).
  { apply adds_bind; [auto with adds|]. intros _. apply IH. }
  apply adds_bind; [auto with adds|]. intros [ok response].
  destruct ok; simpl; [|auto with adds].
  destruct (uploaded_media_id response); [apply IH|].
  apply adds_bind; [auto with adds|]. intros _. apply IH.
Qed.

(** Whatever [send] does, it appends to the trace, in stretches of single
    log lines and of a throttle step followed by its request. *)
Lemma adds_send body attach : adds P (send net body attach).
Proof.
  unfold send. apply adds_bind; [auto with adds|]. intros o.
  destruct (targets o); [|apply adds_bind; auto with adds].
  apply adds_bind; [apply adds_upload_loop|]. intros [attachments|];
    [|auto with adds].
  destruct (mode o); [apply adds__send_dm | apply adds__send_tweet].
Qed.

End Adds.

Lemma paced_app a b : paced a -> paced b -> paced (a ++ b).
Proof.
  induction 1; intros Hb; simpl; auto using paced.
Qed.

(** Every request of a dispatch comes directly after a throttle step. *)
Lemma send_paced body attach : adds paced (send net body attach).
Proof.
  apply adds_send; auto using paced, paced_app.
Qed.

Lemma send_grows body attach : adds (fun _ => True) (send net body attach).
Proof. apply adds_send; auto. Qed.

Lemma _send_dm_grows body attachments :
  adds (fun _ => True) (_send_dm net body attachments).
Proof. apply adds__send_dm; auto. Qed.

(** C2.  Every request [_fetch] issues comes directly after its throttle
    step.  The wait handed to the throttle is a duration exactly when the
    remaining counter is 0 and the clock is before the reset instant; it
    is then positive and equals (reset - now) + 0.5 s, and otherwise there
    is no wait.  The request leaves at or after the reset instant whenever
    the counter is 0: none is issued inside an active window.  A call that
    adds nothing to the trace is one whose attachment could not be
    opened.  In the trace of a whole dispatch, too, every request comes
    directly after a throttle step. *)
Theorem fetch_throttles_every_request :
  forall url p m j s,
    let o := self s in
    let w := ratelimit_wait o (clock s) in
    let s' := snd (_fetch net url p m j s) in
    ((exists d, w = Some d /\ 0 < d) <->
     (ratelimit_remaining o = 0 /\ clock s < ratelimit_reset o))
    /\ (forall d, w = Some d -> d = ratelimit_reset o - clock s + 500000)
    /\ (w = None <->
        ~ (ratelimit_remaining o = 0 /\ clock s < ratelimit_reset o))
    /\ (trace s' = trace s \/
        exists t req logs,
          trace s' = trace s ++ Throttle w :: Request t req :: logs
          /\ forallb is_log logs = true
          /\ t = clock s + delay w
          /\ ~ (ratelimit_remaining o = 0 /\ t < ratelimit_reset o))
    /\ (forall body attach, adds paced (send net body attach)).
Proof.
  intros url p m j s o w s'. subst o w s'.
  split; [|split; [|split; [|split]]]; [| | | |apply send_paced].
  - split.
    + intros (d & Hd & _). apply ratelimit_wait_some in Hd. tauto.
    + intros (H0 & H1). exists (ratelimit_reset (self s) - clock s + 500000).
      split; [apply ratelimit_wait_some; auto | lia].
  - intros d Hd. apply ratelimit_wait_some in Hd. tauto.
  - apply ratelimit_wait_none.
  - destruct (fetch_data p j) as [data|e] eqn:Hdata.
    + right. rewrite (_fetch_unfold net url p m j data s Hdata). simpl.
      do 3 eexists. split; [reflexivity|].
      split; [apply settle_logs|]. split; [reflexivity|].
      unfold wait_of.
      destruct (ratelimit_wait (self s) (clock s)) as [d|] eqn:Hw; simpl.
      * apply ratelimit_wait_some in Hw. lia.
      * apply ratelimit_wait_none in Hw. lia.
    + left. rewrite (_fetch_open_fails net url p m j e s Hdata). reflexivity.
Qed.

(** *** Resolving oneself *)

Lemma _whoami_asks (lazy : bool) (s : state) :
  (if lazy then _whoami_cache (self s) else None) = None ->
  sent (trace (snd (_whoami net lazy s))) = sent (trace s) ++ [whoami_request].
Proof.
  intros Hc. unfold _whoami, bind, get_self. simpl. rewrite Hc.
  pose proof (_fetch_sent twitter_whoami PNone GET false (Data PNone) s
                eq_refl) as Hs.
  destruct (_fetch net twitter_whoami PNone GET false s)
    as [[[ok response]|e] s1]; simpl in *; [|exact Hs].
  destruct ok; simpl; [|exact Hs].
  unfold try_except, bind, lift, modify_self, cache_results, ret.
  destruct (subscript response "id") as [id|e1]; simpl.
  - destruct (subscript response "screen_name") as [sn|e2]; simpl.
    + destruct (as_key sn) as [k|e3]; simpl; [exact Hs|].
      destruct e3; exact Hs.
    + destruct e2; exact Hs.
  - destruct e1; exact Hs.
Qed.

(** An accepted answer that names the account resolves it. *)
Lemma _whoami_accepted (lazy : bool) (s : state) r took id screen_name k :
  (if lazy then _whoami_cache (self s) else None) = None ->
  net (List.length (requests_of (trace s))) whoami_request
    = (Replied r, took) ->
  accepted r = true ->
  subscript (body_of r) "id" = Returned id ->
  subscript (body_of r) "screen_name" = Returned screen_name ->
  as_key screen_name = Returned k ->
  exists s',
    _whoami net lazy s = (Returned [(k, id)], s')
    /\ sent (trace s') = sent (trace s) ++ [whoami_request]
    /\ _whoami_cache (self s') = Some [(k, id)]
    /\ dict_find k (_user_cache (self s')) = Some id.
Proof.
  intros Hc Hnet Hacc Hid Hsn Hk.
  pose proof (_whoami_asks lazy s Hc) as Hsent. revert Hsent.
  unfold _whoami, bind, get_self. simpl. rewrite Hc.
  rewrite (_fetch_unfold net twitter_whoami PNone GET false (Data PNone) s
             eq_refl).
  cbv zeta. fold whoami_request. rewrite Hnet. cbn [fst snd].
  rewrite (settle_of_accepted r (self s) Hacc). cbn [fst snd].
  unfold try_except, bind, lift, modify_self, cache_results, ret.
  rewrite Hid, Hsn, Hk. cbn [fst snd self trace clock]. intros Hsent.
  eexists. split; [reflexivity|]. cbn [fst snd self trace clock].
  split; [exact Hsent|].
  split; [reflexivity|].
  apply dict_find_set_same.
Qed.

(** C6.  A constructed notifier is in the invalid state exactly when
    handles were supplied and all of them were rejected, and an empty
    target list gives the empty, valid state.  In the invalid state a
    dispatch logs one warning, issues no request and returns false.  In
    the empty state a dispatch in direct-message mode first asks the
    platform who the account is, and once that answer names the account,
    the one message it sends goes to that account's id. *)
Theorem invalid_targets_never_mean_self :
  forall cr ck cs ak asec tg md ca ba o,
    __init__ cr ck cs ak asec tg md ca ba = Returned o ->
    (targets o = None <->
     parse_list tg <> [] /\
     forall t, In t (parse_list tg) -> IS_USER t = None)
    /\ (tg = [] -> targets o = Some [])
    /\ (targets o = None ->
        forall body attach c tr,
          send net body attach {| self := o; clock := c; trace := tr |} =
            (Returned false,
             {| self := o; clock := c;
                trace :=
                  tr ++ [Log Warning "No valid Twitter targets to notify."]
             |}))
    /\ (targets o = Some [] -> mode o = DM ->
        forall body c tr,
          let s := {| self := o; clock := c; trace := tr |} in
          (exists rest,
             sent (trace (snd (send net body [] s))) =
               sent tr ++ whoami_request :: rest)
          /\ (forall r took id screen_name k,
                net (List.length (requests_of tr)) whoami_request
                  = (Replied r, took) ->
                accepted r = true ->
                subscript (body_of r) "id" = Returned id ->
                subscript (body_of r) "screen_name" = Returned screen_name ->
                as_key screen_name = Returned k ->
                sent (trace (snd (send net body [] s))) =
                  sent tr ++ [whoami_request; dm_request id body])).
Proof.
  intros cr ck cs ak asec tg md ca ba o Hinit.
  pose proof (init_targets_none _ _ _ _ _ _ _ _ _ _ Hinit) as Hnone.
  pose proof (init_inv _ _ _ _ _ _ _ _ _ _ Hinit)
    as (_ & _ & _ & _ & _ & _ & _ & Htg & Hwho & _).
  split; [exact Hnone|]. split; [|split].
  - intros ->. rewrite Htg. reflexivity.
  - intros Ht body attach c tr. unfold send, bind, get_self. simpl.
    rewrite Ht. reflexivity.
  - intros Ht Hm body c tr s.
    assert (Hc : (if cache o then _whoami_cache (self s) else None) = None).
    { subst s. simpl. rewrite Hwho. destruct (cache o); reflexivity. }
    assert (Hsend : send net body [] s =
              match _whoami net (cache o) s with
              | (Returned [], s1) =>
                  (Returned false,
                   {| self := self s1; clock := clock s1;
                      trace := trace s1 ++
                        [Log Warning
                           "Failed to acquire user(s) to Direct Message via Twitter"]
                   |})
              | (Returned (t :: ts), s1) =>
                  bind (dm_loop net [PEvent JNull body None] (t :: ts) false)
                       (fun has_error => ret (negb has_error)) s1
              | (Raised e, s1) => (Raised e, s1)
              end).
    { unfold send, bind, get_self. subst s. simpl. rewrite Ht. simpl.
      rewrite Hm. unfold _send_dm, bind, get_self. simpl. rewrite Ht.
      destruct (_whoami net (cache o) _) as [[[|t ts]|e] s1]; reflexivity. }
    split.
    + rewrite Hsend. pose proof (_whoami_asks (cache o) s Hc) as Hask.
      destruct (_whoami net (cache o) s) as [[[|t ts]|e] s1]; simpl in Hask.
      * exists []. simpl. rewrite sent_app, Hask. simpl.
        rewrite app_nil_r. reflexivity.
      * destruct (adds_bind (fun _ => True) (fun _ _ _ _ => I)
                    (dm_loop net [PEvent JNull body None] (t :: ts) false)
                    (fun has_error => ret (negb has_error))
                    (adds_dm_loop (fun _ => True) I (fun _ _ _ _ => I)
                       (fun _ _ => I) (fun _ _ _ => I) _ _ _)
                    (fun a => adds_ret (fun _ => True) I _) s1)
          as (evs & Hevs & _).
        exists (sent evs). rewrite Hevs, sent_app, Hask.
        rewrite <- app_assoc. reflexivity.
      * exists []. simpl. exact Hask.
    + intros r took id screen_name k Hnet Hacc Hid Hsn Hk.
      destruct (_whoami_accepted (cache o) s r took id screen_name k
                  Hc Hnet Hacc Hid Hsn Hk) as (s1 & Hw & Hs1 & _).
      rewrite Hsend, Hw. unfold bind. simpl.
      pose proof (_fetch_sent twitter_dm (PEvent id body None) POST true
                    (JsonData (PEvent id body None)) s1 eq_refl) as Hdm.
      unfold bind.
      destruct (_fetch net twitter_dm (PEvent id body None) POST true s1)
        as [[[ok response]|e] s2]; simpl in *.
      * destruct ok; simpl; rewrite ?sent_app, Hdm, Hs1; simpl;
          rewrite <- ?app_assoc, ?app_nil_r; reflexivity.
      * rewrite Hdm, Hs1, <- app_assoc. reflexivity.
Qed.

(** *** Uploading the attachments *)




End Dispatching.

(* ================================================================= *)
(** ** IdentityResolver *)

(** *** Batches of handles *)

Opaque firstn skipn.

Lemma slices_cons fuel x names :
  slices (S fuel) (x :: names) =
    firstn 100 (x :: names) :: slices fuel (skipn 100 (x :: names)).
Proof. reflexivity. Qed.

Lemma slices_concat fuel names :
  (List.length names <= fuel)%nat -> List.concat (slices fuel names) = names.
Proof.
  revert names. induction fuel as [|fuel IH]; intros names Hlen.
  - destruct names; [reflexivity | simpl in Hlen; lia].
  - destruct names as [|x names']; [reflexivity|].
    rewrite slices_cons. cbn [List.concat]. rewrite IH.
    + apply firstn_skipn.
    + rewrite length_skipn. lia.
Qed.

Lemma slices_bound fuel names :
  Forall (fun b => (1 <= List.length b <= 100)%nat) (slices fuel names).
Proof.
  revert names. induction fuel as [|fuel IH]; intros names; [constructor|].
  destruct names as [|x names']; [constructor|].
  rewrite slices_cons. constructor; [|apply IH].
  rewrite length_firstn. cbn [List.length]. lia.
Qed.

Lemma slices_length fuel names :
  (List.length names <= fuel)%nat ->
  List.length (slices fuel names) = ((List.length names + 99) / 100)%nat.
Proof.
  revert names. induction fuel as [|fuel IH]; intros names Hlen.
  - destruct names; [reflexivity | simpl in Hlen; lia].
  - destruct names as [|x names']; [reflexivity|].
    rewrite slices_cons. cbn [List.length].
    rewrite IH by (rewrite length_skipn; cbn [List.length] in *; lia).
    rewrite length_skipn.
    change (S (List.length names')) with (List.length (x :: names')).
    remember (List.length (x :: names')) as n eqn:Hn.
    assert (1 <= n)%nat by (subst n; cbn [List.length]; lia).
    destruct (Nat.le_gt_cases n 100) as [Hle|Hgt].
    + replace (n - 100)%nat with 0%nat by lia.
      replace (S ((0 + 99) / 100)) with 1%nat by reflexivity.
      apply (Nat.div_unique _ _ _ (n - 1)); lia.
    + replace (n + 99)%nat with ((n - 100 + 99) + 1 * 100)%nat by lia.
      rewrite Nat.div_add by lia. lia.
Qed.

(** The lookups of 150 handles: one of 100 and one of 50. *)
Lemma lookup_batches_150 names :
  List.length names = 150%nat ->
  lookup_batches names = [firstn 100 names; skipn 100 names]
  /\ List.length (firstn 100 names) = 100%nat
  /\ List.length (skipn 100 names) = 50%nat.
Proof.
  intros H.
  assert (Hf : List.length (firstn 100 names) = 100%nat)
    by (rewrite length_firstn; lia).
  assert (Hs : List.length (skipn 100 names) = 50%nat)
    by (rewrite length_skipn; lia).
  split; [|auto]. unfold lookup_batches. rewrite H.
  destruct names as [|x names']; [discriminate|].
  rewrite (slices_cons 149). f_equal.
  destruct (skipn 100 (x :: names')) as [|y rest] eqn:E; [discriminate|].
  rewrite (slices_cons 148).
  rewrite firstn_all2 by lia.
  rewrite skipn_all2 by lia. reflexivity.
Qed.

Transparent firstn skipn.

(** *** [parse_list] *)

Lemma parse_list_in x l : In x (parse_list l) <-> In x l.
Proof.
  induction l as [|y l IH]; simpl; [tauto|].
  rewrite filter_In, IH. split.
  - intros [H|[H _]]; auto.
  - intros [H|H]; [auto|].
    destruct (String.eqb y x) eqn:E.
    + apply String.eqb_eq in E. auto.
    + right. auto.
Qed.

Lemma parse_list_nodup l : NoDup l -> parse_list l = l.
Proof.
  induction 1 as [|x l Hx Hl IH]; simpl; [reflexivity|].
  rewrite IH. f_equal. apply forallb_filter_id. apply forallb_forall.
  intros y Hy. destruct (String.eqb x y) eqn:E; [|reflexivity].
  apply String.eqb_eq in E. subst. contradiction.
Qed.

(** *** Lookups *)

Lemma unrated_fields o o' :
  unrated o = unrated o' ->
  _user_cache o = _user_cache o' /\ _whoami_cache o = _whoami_cache o'
  /\ targets o = targets o' /\ cache o = cache o' /\ mode o = mode o'
  /\ batch o = batch o'.
Proof.
  intros H.
  pose proof (f_equal _user_cache H). pose proof (f_equal _whoami_cache H).
  pose proof (f_equal targets H). pose proof (f_equal cache H).
  pose proof (f_equal mode H). pose proof (f_equal batch H).
  simpl in *. repeat split; assumption.
Qed.

Lemma dict_mem_in k v d : In (k, v) d -> dict_mem k d = true.
Proof.
  induction d as [|[k2 v2] d IH]; simpl; [intros []|].
  intros [[= -> ->]|H].
  - rewrite pykey_eqb_refl. reflexivity.
  - rewrite IH by exact H. apply orb_true_r.
Qed.

Lemma filter_none {A} (f : A -> bool) l :
  (forall x, In x l -> f x = false) -> filter f l = [].
Proof.
  induction l as [|x l IH]; simpl; intros H; [reflexivity|].
  rewrite (H x) by auto. apply IH. auto.
Qed.

Lemma filter_all {A} (f : A -> bool) l :
  (forall x, In x l -> f x = true) -> filter f l = l.
Proof.
  induction l as [|x l IH]; simpl; intros H; [reflexivity|].
  rewrite (H x) by auto. f_equal. apply IH. auto.
Qed.

Lemma key_in_name name names :
  key_in (KStr name) names = true <-> In name names.
Proof.
  simpl. rewrite existsb_exists. split.
  - intros (x & Hx & E). apply String.eqb_eq in E. subst. exact Hx.
  - intros H. exists name. split; [exact H | apply String.eqb_refl].
Qed.

(** With none of the names cached, the cache serves nothing. *)
Lemma nothing_cached names (d : pydict) :
  (forall h, In h names -> dict_mem (KStr h) d = false) ->
  filter (fun kv => key_in (fst kv) names) d = [].
Proof.
  intros H. apply filter_none. intros [k v] Hin. simpl fst.
  destruct (key_in k names) eqn:E; [|reflexivity].
  destruct k as [| |name]; try discriminate.
  apply key_in_name in E. apply dict_mem_in in Hin.
  rewrite (H name E) in Hin. discriminate.
Qed.

(** With all of the names cached, nothing is left to look up. *)
Lemma everything_cached names (d : pydict) :
  (forall h, In h names -> dict_mem (KStr h) d = true) ->
  filter (fun name =>
            negb (dict_mem (KStr name)
                    (filter (fun kv => key_in (fst kv) names) d))) names = [].
Proof.
  intros H. apply filter_none. intros name Hin.
  apply negb_false_iff. apply dict_mem_find.
  rewrite (dict_find_filter (fun k => key_in k names))
    by (apply key_in_name; exact Hin).
  apply dict_mem_find. apply H. exact Hin.
Qed.

Section Resolver.

Variable net : nat -> request -> outcome * N.

Lemma _fetch_handled url p m j data s :
  fetch_data p j = Returned data ->
  handled (fst (net (List.length (requests_of (trace s)))
                    {| r_url := url; r_method := m; r_body := data |}))
    = true ->
  exists s1,
    _fetch net url p m j s =
      (Returned
         (match fst (net (List.length (requests_of (trace s)))
                         {| r_url := url; r_method := m; r_body := data |})
          with
          | Replied r => (accepted r, body_of r)
          | Fails _ => (false, JDict [])
          end), s1)
    /\ sent (trace s1) =
         sent (trace s) ++ [{| r_url := url; r_method := m; r_body := data |}]
    /\ unrated (self s1) = unrated (self s).
Proof.
  intros Hdata Hh.
  pose proof (_fetch_sent net url p m j data s Hdata) as Hsent.
  pose proof (_fetch_unrated net url p m j s) as Hun.
  pose proof (_fetch_unfold net url p m j data s Hdata) as Hf.
  cbv zeta in Hf. rewrite (settle_result _ (self s) Hh) in Hf.
  rewrite Hf in *. simpl in *. eexists. split; [reflexivity|]. auto.
Qed.

Hypothesis net_handled : forall n req, handled (fst (net n req)) = true.

(** The lookup loop issues one request per batch and merges the
    answers. *)
Lemma lookup_loop_merged batches results s :
  exists s1,
    lookup_loop net batches results s =
      (Returned (merged net (List.length (requests_of (trace s)))
                        batches results), s1)
    /\ sent (trace s1) = sent (trace s) ++ map lookup_request batches
    /\ unrated (self s1) = unrated (self s).
Proof.
  revert results s. induction batches as [|names rest IH]; intros results s.
  - exists s. simpl. rewrite app_nil_r. auto.
  - destruct (_fetch_handled twitter_lookup (PScreenName names) POST false
                (Data (PScreenName names)) s eq_refl (net_handled _ _))
      as (s1 & Hf & Hs1 & Hu1).
    simpl lookup_loop. unfold bind at 1. rewrite Hf.
    fold (lookup_request names) in *.
    assert (Hn : List.length (requests_of (trace s1)) =
                 S (List.length (requests_of (trace s)))).
    { rewrite <- !sent_length, Hs1, length_app. simpl. lia. }
    assert (Hstep : forall acc,
              exists s2,
                lookup_loop net rest acc s1 =
                  (Returned (merged net
                               (S (List.length (requests_of (trace s))))
                               rest acc), s2)
                /\ sent (trace s2) =
                     sent (trace s) ++ map lookup_request (names :: rest)
                /\ unrated (self s2) = unrated (self s)).
    { intros acc. destruct (IH acc s1) as (s2 & Hl & Hs2 & Hu2).
      exists s2. rewrite Hl, Hn, Hs2, Hs1, Hu2, Hu1, <- app_assoc. auto. }
    simpl merged. unfold answer_entries.
    destruct (fst (net (List.length (requests_of (trace s)))
                       (lookup_request names))) as [r|e].
    + destruct (accepted r); [|apply Hstep].
      destruct (body_of r); apply Hstep.
    + apply Hstep.
Qed.

Lemma wf_merged n batches results :
  wf_dict results -> wf_dict (merged net n batches results).
Proof.
  revert n results. induction batches as [|names rest IH];
    intros n results H; simpl; [exact H|].
  apply IH. apply wf_record_entries. exact H.
Qed.

(** C7, as amended.  Against a remote end whose outcomes [_fetch]
    handles, the resolution of handles none of which is cached issues one
    lookup per batch of the deduplicated handles; every batch holds between
    1 and 100 of them, the batches in order are the handles, and 150
    distinct handles make two batches, of 100 and of 50.  The result is the
    merge of all the batch answers, and each of its pairs is in the cache
    afterwards, whatever the cache flag.  When that result resolved every
    handle, a second resolution with caching enabled issues no request,
    changes nothing, and serves the same ids. *)
Theorem user_lookup_batches_and_caches :
  forall handles (lazy : bool) s,
    (forall h, In h handles ->
               dict_mem (KStr h) (_user_cache (self s)) = false) ->
    let names := parse_list handles in
    let batches := lookup_batches names in
    exists results s1,
      _user_lookup net handles lazy s = (Returned results, s1)
      /\ sent (trace s1) = sent (trace s) ++ map lookup_request batches
      /\ Forall (fun b => (1 <= List.length b <= 100)%nat) batches
      /\ List.concat batches = names
      /\ (NoDup handles -> List.length handles = 150%nat ->
          exists b1 b2,
            batches = [b1; b2] /\ List.length b1 = 100%nat
            /\ List.length b2 = 50%nat)
      /\ results =
           merged net (List.length (requests_of (trace s))) batches []
      /\ (forall k v, dict_find k results = Some v ->
                      dict_find k (_user_cache (self s1)) = Some v)
      /\ ((forall h, In h handles -> dict_mem (KStr h) results = true) ->
          exists again,
            _user_lookup net handles true s1 = (Returned again, s1)
            /\ forall h, In h handles ->
                 dict_find (KStr h) again = dict_find (KStr h) results).
Proof.
  intros handles lazy s Hun names batches.
  assert (Hdef : names = parse_list handles) by reflexivity.
  clearbody names.
  assert (Hnames : forall h, In h names ->
            dict_mem (KStr h) (_user_cache (self s)) = false).
  { intros h Hh. apply Hun. apply (proj1 (parse_list_in h handles)).
    rewrite <- Hdef. exact Hh. }
  assert (Hsplit :
    (match lazy, _user_cache (self s) with
     | true, _ :: _ =>
         (filter (fun kv => key_in (fst kv) names) (_user_cache (self s)),
          filter (fun name =>
                    negb (dict_mem (KStr name)
                            (filter (fun kv => key_in (fst kv) names)
                                    (_user_cache (self s))))) names)
     | _, _ => ([], names)
     end) = ([] : pydict, names)).
  { destruct lazy; [|reflexivity].
    destruct (_user_cache (self s)) as [|kv d] eqn:E; [reflexivity|].
    rewrite (nothing_cached names (kv :: d) Hnames).
    rewrite filter_all; [reflexivity|]. reflexivity. }
  assert (Hbound : Forall (fun b => (1 <= List.length b <= 100)%nat) batches)
    by apply slices_bound.
  assert (Hconcat : List.concat batches = names)
    by (apply slices_concat; lia).
  assert (H150 : NoDup handles -> List.length handles = 150%nat ->
            exists b1 b2,
              batches = [b1; b2] /\ List.length b1 = 100%nat
              /\ List.length b2 = 50%nat).
  { intros Hnd Hlen. subst batches names.
    rewrite (parse_list_nodup handles Hnd).
    destruct (lookup_batches_150 handles Hlen) as (-> & H1 & H2). eauto. }
  assert (Hagain : forall results s1,
    (forall k v, dict_find k results = Some v ->
                 dict_find k (_user_cache (self s1)) = Some v) ->
    (forall h, In h handles -> dict_mem (KStr h) results = true) ->
    exists again,
      _user_lookup net handles true s1 = (Returned again, s1)
      /\ forall h, In h handles ->
           dict_find (KStr h) again = dict_find (KStr h) results).
  { intros results s1 Hcached Hall.
    assert (Hin : forall h, In h names ->
              dict_find (KStr h) (_user_cache (self s1)) =
              dict_find (KStr h) results
              /\ dict_mem (KStr h) (_user_cache (self s1)) = true).
    { intros h Hh. rewrite Hdef in Hh.
      apply (proj1 (parse_list_in h handles)) in Hh.
      specialize (Hall h Hh). apply dict_mem_find in Hall.
      destruct (dict_find (KStr h) results) as [v|] eqn:E; [|congruence].
      rewrite (Hcached _ _ E). split; [reflexivity|].
      apply dict_mem_find. rewrite (Hcached _ _ E). discriminate. }
    unfold _user_lookup, bind, get_self. simpl. rewrite <- Hdef.
    destruct (_user_cache (self s1)) as [|kv d] eqn:Ec.
    - destruct names as [|h names'].
      + exists []. split; [destruct s1; reflexivity|].
        intros h Hh. apply (proj2 (parse_list_in h handles)) in Hh.
        rewrite <- Hdef in Hh. destruct Hh.
      + destruct (Hin h (or_introl eq_refl)) as [_ Hm]. discriminate.
    - rewrite (everything_cached names (kv :: d)
                 (fun h Hh => proj2 (Hin h Hh))).
      eexists. split; [destruct s1; reflexivity|].
      intros h Hh. apply (proj2 (parse_list_in h handles)) in Hh.
        rewrite <- Hdef in Hh.
      rewrite (dict_find_filter (fun k => key_in k names))
        by (apply key_in_name; exact Hh).
      apply (Hin h Hh). }
  destruct names as [|h names'].
  - exists [], s.
    assert (Hl : _user_lookup net handles lazy s = (Returned [], s)).
    { unfold _user_lookup, bind, get_self. simpl. rewrite <- Hdef.
      rewrite Hsplit. destruct s; reflexivity. }
    rewrite Hl.
    split; [reflexivity|]. split; [cbn; rewrite app_nil_r; reflexivity|].
    split; [exact Hbound|]. split; [exact Hconcat|]. split; [exact H150|].
    split; [reflexivity|]. split; [intros k v [=]|].
    intros Hall. apply Hagain; [intros k v [=] | exact Hall].
  - destruct (lookup_loop_merged batches [] s) as (s1 & Hl & Hs1 & Hu1).
    pose (results := merged net (List.length (requests_of (trace s)))
                            batches []).
    fold results in Hl.
    pose (s2 := {| self := set_user_cache
                             (dict_update (_user_cache (self s1)) results)
                             (self s1);
                   clock := clock s1; trace := trace s1 |}).
    assert (Hres : _user_lookup net handles lazy s = (Returned results, s2)).
    { unfold _user_lookup, bind, get_self. simpl. rewrite <- Hdef.
      rewrite Hsplit. fold batches. unfold bind in Hl. rewrite Hl.
      reflexivity. }
    assert (Hcached : forall k v, dict_find k results = Some v ->
              dict_find k (_user_cache (self s2)) = Some v).
    { intros k v Hk. subst s2. simpl. apply dict_update_find; [|exact Hk].
      apply wf_merged. constructor. }
    exists results, s2. rewrite Hres.
    split; [reflexivity|]. split; [exact Hs1|].
    split; [exact Hbound|]. split; [exact Hconcat|]. split; [exact H150|].
    split; [reflexivity|]. split; [exact Hcached|].
    intros Hall. apply Hagain; assumption.
Qed.

End Resolver.

(* ================================================================= *)
(** ** The URL round trip *)

(** *** Secrets *)

Lemma skip_spaces_clean s : starts_clean (skip_spaces s).
Proof.
  induction s as [|c s IH]; simpl; [exact I|].
  destruct (is_space c) eqn:E; [exact IH | exact E].
Qed.

Lemma skip_spaces_id s : starts_clean s -> skip_spaces s = s.
Proof.
  destruct s as [|c s]; simpl; [reflexivity|]. intros ->. reflexivity.
Qed.

Lemma rstrip_clean s : starts_clean s -> starts_clean (rstrip s).
Proof.
  destruct s as [|c s]; simpl; [auto|]. intros H. rewrite H.
  rewrite andb_false_r. exact H.
Qed.

Lemma rstrip_idem s : rstrip (rstrip s) = rstrip s.
Proof.
  induction s as [|c s IH]; simpl; [reflexivity|].
  destruct (String.eqb (rstrip s) "" && is_space c) eqn:E;
    [reflexivity|].
  simpl. rewrite IH, E. reflexivity.
Qed.

Lemma strip_idem s : strip (strip s) = strip s.
Proof.
  unfold strip.
  rewrite (skip_spaces_id (rstrip (skip_spaces s)))
    by (apply rstrip_clean, skip_spaces_clean).
  apply rstrip_idem.
Qed.

(** A validated secret validates to itself. *)
Lemma validate_regex_idem s v :
  validate_regex s = Some v -> validate_regex v = Some v.
Proof.
  unfold validate_regex.
  destruct (String.eqb (strip s) "") eqn:E; [discriminate|].
  intros [= <-]. rewrite strip_idem, E. reflexivity.
Qed.

(** *** Handles *)

Lemma span_word_fst s :
  span_word (fst (span_word s)) = (fst (span_word s), EmptyString).
Proof.
  induction s as [|c s IH]; simpl; [reflexivity|].
  destruct (is_word c) eqn:E; [|reflexivity].
  destruct (span_word s) as [w r]; simpl in *. rewrite E, IH. reflexivity.
Qed.

Lemma IS_USER_at t u : IS_USER t = Some u -> IS_USER (at_handle u) = Some u.
Proof.
  unfold IS_USER.
  set (s := match skip_spaces t with
            | String "@" s' => s'
            | _ => skip_spaces t
            end).
  pose proof (span_word_fst s) as Hw.
  destruct (span_word s) as [w r]; simpl in Hw.
  destruct (String.eqb w "") eqn:Ew; [discriminate|].
  destruct (String.eqb r "" || String.eqb r newline); [|discriminate].
  intros [= <-]. unfold at_handle. simpl. rewrite Hw, Ew. reflexivity.
Qed.

Lemma load_targets_handles l :
  Forall (fun u => IS_USER (at_handle u) = Some u) (fst (load_targets l)).
Proof.
  induction l as [|t l IH]; simpl; [constructor|].
  destruct (load_targets l) as [kept err]; simpl in *.
  destruct (IS_USER t) as [u|] eqn:E; simpl; [|exact IH].
  constructor; [eapply IS_USER_at; eauto | exact IH].
Qed.

Lemma load_targets_at ts :
  Forall (fun u => IS_USER (at_handle u) = Some u) ts ->
  load_targets (map at_handle ts) = (ts, false).
Proof.
  induction 1 as [|u ts Hu Hts IH]; simpl; [reflexivity|].
  rewrite IH, Hu. reflexivity.
Qed.

(** Distinct handles stay as they are when the constructor deduplicates
    them in their [@] form. *)
Lemma distinct_handles_kept ts :
  NoDup ts -> parse_list (map at_handle ts) = map at_handle ts.
Proof.
  intros H. apply parse_list_nodup.
  induction H as [|t ts Hn Hd IH]; simpl; constructor; [|exact IH].
  intros Hin. apply in_map_iff in Hin. destruct Hin as (x & E & Hx).
  injection E as ->. contradiction.
Qed.

(** *** Query parameters *)

Lemma params_set_other k k' v q :
  k <> k' -> qsd_get k (params_set k' v q) = qsd_get k q.
Proof.
  intros Hne. induction q as [|[k2 v2] q IH]; simpl.
  - destruct (String.eqb k k') eqn:E; [|reflexivity].
    apply String.eqb_eq in E. contradiction.
  - destruct (String.eqb k' k2) eqn:E; simpl.
    + apply String.eqb_eq in E. subst k2.
      destruct (String.eqb k k') eqn:E2; [|reflexivity].
      apply String.eqb_eq in E2. contradiction.
    + rewrite IH. reflexivity.
Qed.

Lemma params_update_other k q extra :
  qsd_get k extra = None ->
  qsd_get k (params_update q extra) = qsd_get k q.
Proof.
  unfold params_update. revert q.
  induction extra as [|[k2 v2] extra IH]; intros q H; simpl in *;
    [reflexivity|].
  destruct (String.eqb k k2) eqn:E; [discriminate|].
  rewrite IH by exact H. apply params_set_other.
  intros ->. rewrite String.eqb_refl in E. discriminate.
Qed.

(** *** [url] then [parse_url] *)

Section RoundTrip.

Variable url_parameters : NotifyTwitter -> list (string * string).
Variable parse_bool : string -> bool -> bool.

Hypothesis parse_bool_yes : forall default, parse_bool "yes" default = true.
Hypothesis parse_bool_no : forall default, parse_bool "no" default = false.
Hypothesis url_parameters_other :
  forall o k, In k ["mode"; "batch"; "cache"; "to"] ->
              qsd_get k (url_parameters o) = None.

Lemma parse_bool_yes_no b default : parse_bool (yes_no b) default = b.
Proof. destruct b; simpl; auto. Qed.

Lemma resolve_mode_value m : resolve_mode (Some (mode_value m)) = Returned m.
Proof. destruct m; reflexivity. Qed.

(** What [parse_url] reads back from the URL of a notifier with targets. *)
Lemma parse_url_of_url o ts :
  targets o = Some ts ->
  parse_url parse_bool (base_parse_url (url url_parameters o)) =
    {| k_ckey := ckey o;
       k_csecret := Some (csecret o);
       k_akey := Some (akey o);
       k_asecret := Some (asecret o);
       k_mode := Some (mode_value (mode o));
       k_targets := map at_handle ts;
       k_cache := Some (cache o);
       k_batch := batch o |}.
Proof.
  intros Ht. unfold parse_url, base_parse_url, url, nonempty_param. simpl.
  rewrite !params_update_other
    by (apply url_parameters_other; simpl; auto).
  simpl. rewrite !parse_bool_yes_no, Ht. f_equal.
  - destruct (mode o); reflexivity.
  - rewrite app_nil_r. destruct ts; reflexivity.
  - destruct (cache o); simpl;
      [rewrite parse_bool_yes | rewrite parse_bool_no]; reflexivity.
Qed.

(** C9, as amended.  For a constructed notifier whose targets are a list
    that the constructor's deduplication leaves as it is when written with
    the [@] prefix, the keyword arguments parsed from its URL construct a
    notifier with the same four secrets, mode, batch flag, cache flag and
    targets, in the same order. *)
Theorem url_round_trip :
  forall cr ck cs ak asec tg md ca ba o ts,
    __init__ cr ck cs ak asec tg md ca ba = Returned o ->
    targets o = Some ts ->
    parse_list (map at_handle ts) = map at_handle ts ->
    exists o',
      instantiate cr
        (parse_url parse_bool (base_parse_url (url url_parameters o)))
        = Returned o'
      /\ ckey o' = ckey o /\ csecret o' = csecret o
      /\ akey o' = akey o /\ asecret o' = asecret o
      /\ mode o' = mode o /\ batch o' = batch o /\ cache o' = cache o
      /\ targets o' = Some ts.
Proof.
  intros cr ck cs ak asec tg md ca ba o ts Hinit Ht Hdistinct.
  pose proof (init_inv _ _ _ _ _ _ _ _ _ _ Hinit)
    as (Hck & Hcs & Hak & Has & _ & _ & _ & Htg & _).
  assert (Hts : Forall (fun u => IS_USER (at_handle u) = Some u) ts).
  { pose proof (load_targets_handles (parse_list tg)) as Hl.
    rewrite Ht in Htg.
    destruct (load_targets (parse_list tg)) as [kept err]; simpl in *.
    destruct err, kept; try discriminate; injection Htg as ->; exact Hl. }
  rewrite (parse_url_of_url o ts Ht). unfold instantiate, __init__.
  cbn [k_ckey k_csecret k_akey k_asecret k_mode k_targets k_cache k_batch].
  rewrite (validate_regex_idem _ _ Hck), (validate_regex_idem _ _ Hcs),
    (validate_regex_idem _ _ Hak), (validate_regex_idem _ _ Has).
  rewrite resolve_mode_value, Hdistinct, (load_targets_at ts Hts).
  eexists. split; [reflexivity|]. simpl. repeat split; reflexivity.
Qed.

End RoundTrip.

(* ================================================================= *)
(** ** Concrete runs *)

(** C6 at work: a notifier built from one malformed handle sends
    nothing. *)
Lemma invalid_targets_never_mean_self_witness :
  __init__ 0 "ck" "cs" "ak" "as" ["@bad!"] None true true
    = Returned (bot DM true None)
  /\ send net_quota "hi" [] (boot (bot DM true None)) =
       (Returned false,
        {| self := bot DM true None; clock := 1700000000 * second;
           trace := [] ++ [Log Warning "No valid Twitter targets to notify."]
        |}).
Proof.
  split; [reflexivity|].
  exact (proj1 (proj2 (proj2
           (invalid_targets_never_mean_self net_quota 0 "ck" "cs" "ak" "as"
              ["@bad!"] None true true (bot DM true None) eq_refl)))
           eq_refl "hi" [] (1700000000 * second) []).
Defined.



(** The amended C7 at work: alice is looked up, uncached. *)
Lemma user_lookup_batches_and_caches_witness :
  let s := boot (bot DM true (Some ["alice"])) in
  exists results s1,
    _user_lookup net_directory ["alice"] false s = (Returned results, s1)
    /\ sent (trace s1) =
         sent (trace s) ++
         map lookup_request (lookup_batches (parse_list ["alice"])).
Proof.
  intros s.
  destruct (user_lookup_batches_and_caches net_directory
              (fun _ _ => eq_refl) ["alice"] false s (fun _ _ => eq_refl))
    as (results & s1 & H1 & H2 & _).
  exists results, s1. split; [exact H1 | exact H2].
Defined.

(** C7 as stated fails: when the first resolution resolved nothing, here
    because the remote end is down, the second resolution of the same
    handle, with caching enabled, issues a lookup again. *)
Lemma unresolved_handle_is_looked_up_again :
  let s := boot (bot DM true (Some ["alice"])) in
  let s1 := snd (_user_lookup net_down ["alice"] true s) in
  let s2 := snd (_user_lookup net_down ["alice"] true s1) in
  fst (_user_lookup net_down ["alice"] true s) = Returned []
  /\ sent (trace s1) = [lookup_request ["alice"]]
  /\ sent (trace s2) = [lookup_request ["alice"]; lookup_request ["alice"]].
Proof. vm_compute. repeat split. Qed.

Lemma common_parameters_other (o : NotifyTwitter) (k : string) :
  In k ["mode"; "batch"; "cache"; "to"] ->
  qsd_get k (common_parameters o) = None.
Proof.
  intros [<-|[<-|[<-|[<-|[]]]]]; reflexivity.
Defined.

(** The amended C9 at work: two handles, tweet mode, batching off. *)
Lemma url_round_trip_witness :
  let o := bot TWEET false (Some ["alice"; "bob"]) in
  __init__ 0 "ck" "cs" "ak" "as" ["@alice"; "bob"] (Some "tweet") true false
    = Returned o
  /\ exists o',
       instantiate 0
         (parse_url yes_no_bool (base_parse_url (url common_parameters o)))
         = Returned o'
       /\ ckey o' = ckey o /\ csecret o' = csecret o
       /\ akey o' = akey o /\ asecret o' = asecret o
       /\ mode o' = mode o /\ batch o' = batch o /\ cache o' = cache o
       /\ targets o' = Some ["alice"; "bob"].
Proof.
  intros o. split; [reflexivity|].
  exact (url_round_trip common_parameters yes_no_bool
           (fun _ => eq_refl) (fun _ => eq_refl) common_parameters_other
           0 "ck" "cs" "ak" "as" ["@alice"; "bob"] (Some "tweet") true false
           o ["alice"; "bob"] eq_refl eq_refl eq_refl).
Defined.

(** C9 as stated fails: the URL of a notifier in the invalid state carries
    no target, and the notifier constructed from it is in the empty state,
    the one that notifies the account itself. *)
Lemma invalid_state_lost_in_url :
  let o := bot DM true None in
  __init__ 0 "ck" "cs" "ak" "as" ["@bad!"] None true true = Returned o
  /\ instantiate 0
       (parse_url yes_no_bool (base_parse_url (url common_parameters o)))
     = Returned (bot DM true (Some []))
  /\ targets o <> targets (bot DM true (Some [])).
Proof. vm_compute. repeat split. discriminate. Qed.

(* ================================================================= *)
(** ** The verdict of the sending loops *)

Lemma tweet_errors_eq response s :
  tweet_errors response s = (error_details response, s).
Proof.
  unfold tweet_errors, error_details, try_except, bind, lift, ret.
  destruct (subscript response "errors") as [errors|e]; simpl.
  - destruct (iterate errors) as [entries|e]; simpl.
    + destruct (error_entries entries) as [l|e]; simpl; [reflexivity|].
      destruct (_ || _); reflexivity.
    + destruct (_ || _); reflexivity.
  - destruct (_ || _); reflexivity.
Qed.

Lemma log_all_sent lvl msg n s :
  fst (log_all lvl msg n s) = Returned tt
  /\ sent (trace (snd (log_all lvl msg n s))) = sent (trace s)
  /\ self (snd (log_all lvl msg n s)) = self s.
Proof.
  revert s. induction n as [|n IH]; intros s; simpl; [auto|].
  unfold bind, log, emit. simpl.
  destruct (IH {| self := self s; clock := clock s;
                  trace := trace s ++ [Log lvl msg] |}) as (H1 & H2 & H3).
  rewrite H1, H2, H3. simpl. rewrite sent_app. simpl.
  rewrite app_nil_r. auto.
Qed.

Section Verdict.

Variable net : nat -> request -> outcome * N.
Hypothesis net_handled : forall n req, handled (fst (net n req)) = true.

Lemma next_request s s1 req :
  sent (trace s1) = sent (trace s) ++ [req] ->
  List.length (requests_of (trace s1)) =
    S (List.length (requests_of (trace s))).
Proof.
  intros H. rewrite <- !sent_length, H, length_app. simpl. lia.
Qed.

(** One payload sent to every recipient: each send is attempted, and the
    error flag is raised by the first one that fails. *)
Lemma dm_targets_loop_verdict p targets has_error s :
  is_event p = true ->
  exists s1,
    dm_targets_loop net p targets has_error s =
      (Returned
         (has_error ||
          negb (all_succeed net (List.length (requests_of (trace s)))
                  (map (fun kv => message_request p (snd kv)) targets))),
       s1)
    /\ sent (trace s1) =
         sent (trace s) ++ map (fun kv => message_request p (snd kv)) targets
    /\ unrated (self s1) = unrated (self s).
Proof.
  intros Hp. revert has_error s.
  induction targets as [|[k id] rest IH]; intros has_error s.
  - exists s. simpl. rewrite orb_false_r, app_nil_r. auto.
  - assert (Hdata : fetch_data (set_recipient id p) true =
                    Returned (JsonData (set_recipient id p)))
      by (destruct p; try discriminate; reflexivity).
    destruct (_fetch_handled net twitter_dm (set_recipient id p) POST true
                _ s Hdata (net_handled _ _)) as (s1 & Hf & Hs1 & Hu1).
    fold (message_request p id) in *.
    pose proof (next_request s s1 _ Hs1) as Hn.
    simpl dm_targets_loop. unfold bind at 1. rewrite Hf.
    simpl map. simpl all_succeed. unfold succeeds at 1.
    destruct (fst (net (List.length (requests_of (trace s)))
                       (message_request p id))) as [r|e].
    + destruct (accepted r); cbn [negb andb].
      * unfold bind, log, emit. simpl.
        destruct (IH has_error
                    {| self := self s1; clock := clock s1;
                       trace := trace s1 ++
                                [Log Info "Sent Twitter DM notification"] |})
          as (s2 & Hl & Hs2 & Hu2).
        simpl in Hl, Hs2, Hu2.
        rewrite requests_of_app in Hl. simpl in Hl.
        rewrite app_nil_r, Hn in Hl.
        rewrite sent_app in Hs2. simpl in Hs2. rewrite app_nil_r in Hs2.
        exists s2. rewrite Hl, Hs2, Hs1, Hu2, Hu1, <- app_assoc. auto.
      * destruct (IH true s1) as (s2 & Hl & Hs2 & Hu2).
        exists s2. rewrite Hl, Hs2, Hs1, Hu2, Hu1, <- app_assoc.
        rewrite orb_true_r. auto.
    + cbn [negb andb].
      destruct (IH true s1) as (s2 & Hl & Hs2 & Hu2).
      exists s2. rewrite Hl, Hs2, Hs1, Hu2, Hu1, <- app_assoc.
      rewrite orb_true_r. auto.
Qed.

Lemma all_succeed_app n a b :
  all_succeed net n (a ++ b) =
    all_succeed net n a && all_succeed net (n + List.length a) b.
Proof.
  revert n. induction a as [|x a IH]; intros n; simpl.
  - rewrite Nat.add_0_r. reflexivity.
  - rewrite IH, andb_assoc. do 2 f_equal. lia.
Qed.

Lemma requests_after s s1 reqs :
  sent (trace s1) = sent (trace s) ++ reqs ->
  List.length (requests_of (trace s1)) =
    (List.length (requests_of (trace s)) + List.length reqs)%nat.
Proof.
  intros H. rewrite <- !sent_length, H, length_app. reflexivity.
Qed.

(** The sending loop of [_send_dm]: every payload goes to every recipient,
    and the error flag is up at the end exactly when it was up before or a
    send failed. *)
Lemma dm_loop_verdict payloads targets has_error s :
  forallb is_event payloads = true ->
  let reqs :=
    flat_map (fun p => map (fun kv => message_request p (snd kv)) targets)
             payloads in
  exists s1,
    dm_loop net payloads targets has_error s =
      (Returned
         (has_error ||
          negb (all_succeed net (List.length (requests_of (trace s))) reqs)),
       s1)
    /\ sent (trace s1) = sent (trace s) ++ reqs
    /\ unrated (self s1) = unrated (self s).
Proof.
  revert has_error s. induction payloads as [|p rest IH];
    intros has_error s Hev reqs; subst reqs.
  - exists s. simpl. rewrite orb_false_r, app_nil_r. auto.
  - simpl in Hev. apply andb_prop in Hev. destruct Hev as [Hp Hrest].
    destruct (dm_targets_loop_verdict p targets has_error s Hp)
      as (s1 & Hl1 & Hs1 & Hu1).
    simpl dm_loop. unfold bind at 1. rewrite Hl1.
    destruct (IH (has_error ||
                  negb (all_succeed net
                          (List.length (requests_of (trace s)))
                          (map (fun kv => message_request p (snd kv))
                               targets)))
                 s1 Hrest) as (s2 & Hl2 & Hs2 & Hu2).
    exists s2. rewrite Hl2, Hs2, Hs1, Hu2, Hu1, <- app_assoc.
    rewrite (requests_after s s1 _ Hs1).
    simpl flat_map. rewrite all_succeed_app.
    split; [|auto]. do 2 f_equal.
    rewrite <- orb_assoc, <- negb_andb. reflexivity.
Qed.

Hypothesis net_readable : forall n req, readable (fst (net n req)) = true.

(** The sending loop of [_send_tweet], for error bodies it can read: every
    payload is sent, and the error flag is up at the end exactly when it
    was up before or a send failed. *)
Lemma tweet_loop_verdict payloads has_error s :
  forallb is_status payloads = true ->
  exists s1,
    tweet_loop net payloads has_error s =
      (Returned
         (has_error ||
          negb (all_succeed net (List.length (requests_of (trace s)))
                  (map tweet_request payloads))),
       s1)
    /\ sent (trace s1) = sent (trace s) ++ map tweet_request payloads
    /\ unrated (self s1) = unrated (self s).
Proof.
  revert has_error s. induction payloads as [|p rest IH];
    intros has_error s Hst.
  - exists s. simpl. rewrite orb_false_r, app_nil_r. auto.
  - simpl in Hst. apply andb_prop in Hst. destruct Hst as [Hp Hrest].
    assert (Hdata : fetch_data p false = Returned (Data p))
      by (destruct p; try discriminate; reflexivity).
    destruct (_fetch_handled net twitter_tweet p POST false _ s Hdata
                (net_handled _ _)) as (s1 & Hf & Hs1 & Hu1).
    fold (tweet_request p) in *.
    pose proof (next_request s s1 _ Hs1) as Hn.
    pose proof (net_readable (List.length (requests_of (trace s)))
                             (tweet_request p)) as Hread.
    simpl tweet_loop. unfold bind at 1. rewrite Hf.
    simpl map. simpl all_succeed. unfold succeeds at 1.
    assert (Hfail : forall body,
              (exists l, error_details body = Returned l) ->
              exists s2,
                (errors <- tweet_errors body ;;
                 log_all Debug "Tweet Details: Error Code"
                         (List.length errors) ;;
                 tweet_loop net rest true) s1 =
                  (Returned
                     (has_error ||
                      negb (false &&
                            all_succeed net
                              (S (List.length (requests_of (trace s))))
                              (map tweet_request rest))), s2)
                /\ sent (trace s2) =
                     sent (trace s) ++ tweet_request p
                       :: map tweet_request rest
                /\ unrated (self s2) = unrated (self s)).
    { intros body (l & Hl). unfold bind at 1.
      rewrite tweet_errors_eq, Hl. unfold bind at 1.
      destruct (log_all_sent Debug "Tweet Details: Error Code"
                  (List.length l) s1) as (Hr & Hsent & Hself).
      destruct (log_all Debug "Tweet Details: Error Code"
                        (List.length l) s1) as [res s1'].
      simpl in Hr, Hsent, Hself. subst res.
      destruct (IH true s1' Hrest) as (s2 & Hl2 & Hs2 & Hu2).
      exists s2. rewrite Hl2, Hs2, Hsent, Hs1, Hu2, Hself, Hu1.
      rewrite <- app_assoc, orb_true_r. simpl. auto. }
    destruct (fst (net (List.length (requests_of (trace s)))
                       (tweet_request p))) as [r|e].
    + simpl in Hread. destruct (accepted r); cbn [negb andb].
      * unfold bind, log, emit. simpl.
        destruct (IH has_error
                    {| self := self s1; clock := clock s1;
                       trace :=
                         (trace s1 ++ [Log Debug "Tweet Details: url"]) ++
                         [Log Info
                            "Sent Twitter notification as public tweet."]
                    |} Hrest) as (s2 & Hl & Hs2 & Hu2).
        simpl in Hl, Hs2, Hu2.
        rewrite !requests_of_app in Hl. simpl in Hl.
        rewrite !app_nil_r, Hn in Hl.
        rewrite !sent_app in Hs2. simpl in Hs2.
        rewrite !app_nil_r in Hs2.
        exists s2. rewrite Hl, Hs2, Hs1, Hu2, Hu1, <- app_assoc. auto.
      * apply Hfail. simpl in Hread.
        destruct (error_details (body_of r)); [eauto | discriminate].
    + cbn [negb]. apply Hfail. exists []. reflexivity.
Qed.

(** X18.  [_send_tweet], for a remote end whose outcomes [_fetch] handles
    and whose error bodies can be read: one request per payload, also
    after a tweet has been refused, and the verdict is true exactly when
    every one of them succeeded. *)
Theorem send_tweet_verdict body attachments s :
  let reqs :=
    map tweet_request (tweet_payloads body (batch (self s)) attachments) in
  exists s1,
    _send_tweet net body attachments s =
      (Returned (all_succeed net (List.length (requests_of (trace s))) reqs),
       s1)
    /\ sent (trace s1) = sent (trace s) ++ reqs.
Proof.
  intros reqs. subst reqs.
  assert (Hst : forallb is_status
                  (tweet_payloads body (batch (self s)) attachments) = true).
  { unfold tweet_payloads. destruct attachments; [reflexivity|].
    apply forallb_forall. intros p Hp. apply in_map_iff in Hp.
    destruct Hp as (x & <- & _). reflexivity. }
  destruct (tweet_loop_verdict _ false s Hst) as (s1 & Hl & Hs1 & _).
  exists s1. unfold _send_tweet, bind, get_self. simpl.
  unfold bind in Hl. rewrite Hl. simpl. rewrite negb_involutive. auto.
Qed.

End Verdict.

(* ================================================================= *)
(** * Further properties *)

(** ** More on the planner and the payloads *)

Lemma plan_loop_prefix size attachments batches batch :
  plan_loop size attachments batches batch =
    batches ++ plan_loop size attachments [] batch.
Proof.
  revert batches batch.
  induction attachments as [|a rest IH]; intros batches batch; simpl.
  - destruct batch; [rewrite app_nil_r|]; reflexivity.
  - destruct (negb (is_batchable (file_mime a))
              || (size <=? List.length (batch ++ [media_id a]))%nat).
    + rewrite (IH (batches ++ [batch ++ [media_id a]])),
        (IH [batch ++ [media_id a]]), <- app_assoc. reflexivity.
    + apply IH.
Qed.

Lemma plan_loop_cut size l1 g l2 batch :
  is_batchable (file_mime g) = false ->
  plan_loop size (l1 ++ g :: l2) [] batch =
    plan_loop size (l1 ++ [g]) [] batch ++ plan_loop size l2 [] [].
Proof.
  intros Hg. revert batch. induction l1 as [|a l1 IH]; intros batch; simpl.
  - rewrite Hg. simpl. apply plan_loop_prefix.
  - destruct (negb (is_batchable (file_mime a))
              || (size <=? List.length (batch ++ [media_id a]))%nat).
    + rewrite (plan_loop_prefix size (l1 ++ g :: l2)),
        (plan_loop_prefix size (l1 ++ [g])), IH, <- app_assoc.
      reflexivity.
    + apply IH.
Qed.

(** X4.  An attachment that is neither PNG nor JPEG ends the group it is
    in: what follows it is planned as if it came first. *)
Theorem plan_cut :
  forall batch l1 g l2,
    is_batchable (file_mime g) = false ->
    plan batch (l1 ++ g :: l2) = plan batch (l1 ++ [g]) ++ plan batch l2.
Proof.
  intros batch l1 g l2 Hg. apply plan_loop_cut. exact Hg.
Qed.

Lemma plan_cut_witness :
  is_batchable (file_mime (uploaded 2 "image/gif")) = false
  /\ plan true ([uploaded 1 "image/png"] ++ uploaded 2 "image/gif"
                  :: [uploaded 3 "image/png"; uploaded 4 "image/png"])
     = plan true ([uploaded 1 "image/png"] ++ [uploaded 2 "image/gif"])
       ++ plan true [uploaded 3 "image/png"; uploaded 4 "image/png"].
Proof.
  split; [reflexivity|].
  exact (plan_cut true [uploaded 1 "image/png"] (uploaded 2 "image/gif")
           [uploaded 3 "image/png"; uploaded 4 "image/png"] eq_refl).
Defined.

Lemma plan_loop_count size attachments batches batch :
  size = 4%nat ->
  forallb (fun a => is_batchable (file_mime a)) attachments = true ->
  (List.length batch < 4)%nat ->
  List.length (plan_loop size attachments batches batch) =
    (List.length batches
     + (List.length batch + List.length attachments + 3) / 4)%nat.
Proof.
  intros ->. revert batches batch.
  induction attachments as [|a rest IH]; intros batches batch Hall Hlen;
    cbn [plan_loop List.length].
  - destruct batch as [|x batch'].
    + cbn [List.length]. change ((0 + 0 + 3) / 4)%nat with 0%nat. lia.
    + rewrite length_app. cbn [List.length] in *.
      replace ((S (List.length batch') + 0 + 3) / 4)%nat with 1%nat;
        [reflexivity|].
      apply (Nat.div_unique _ _ _ (List.length batch')); lia.
  - cbn [forallb] in Hall. apply andb_prop in Hall.
    destruct Hall as [Ha Hrest].
    rewrite Ha. cbn [negb orb].
    assert (Hnew : List.length (batch ++ [media_id a]) =
                   S (List.length batch))
      by (rewrite length_app; cbn [List.length]; lia).
    destruct (4 <=? List.length (batch ++ [media_id a]))%nat eqn:E.
    + apply Nat.leb_le in E.
      rewrite IH by (auto; cbn [List.length]; lia).
      rewrite length_app. cbn [List.length].
      replace (List.length batch + S (List.length rest) + 3)%nat
        with (0 + List.length rest + 3 + 1 * 4)%nat by lia.
      rewrite Nat.div_add by lia. lia.
    + apply Nat.leb_gt in E. rewrite IH by (auto; lia).
      rewrite Hnew. do 2 f_equal. lia.
Qed.

(** X5.  With batching, attachments that are all PNG or JPEG go out four
    to a tweet: [n] of them make the [n / 4] rounded up groups. *)
Theorem plan_count_batchable :
  forall attachments,
    forallb (fun a => is_batchable (file_mime a)) attachments = true ->
    List.length (plan true attachments) =
      ((List.length attachments + 3) / 4)%nat.
Proof.
  intros attachments H. unfold plan.
  rewrite (plan_loop_count (batch_size true) attachments [] [] eq_refl H)
    by (simpl; lia).
  reflexivity.
Qed.

Lemma plan_count_batchable_witness :
  List.length (plan true [uploaded 1 "image/png"; uploaded 2 "image/jpeg";
                          uploaded 3 "image/jpg"; uploaded 4 "IMAGE/PNG";
                          uploaded 5 "image/png"]) = 2%nat.
Proof.
  exact (plan_count_batchable
           [uploaded 1 "image/png"; uploaded 2 "image/jpeg";
            uploaded 3 "image/jpg"; uploaded 4 "IMAGE/PNG";
            uploaded 5 "image/png"] eq_refl).
Defined.

Lemma nth_error_enumerate {A} start (l : list A) i :
  nth_error (enumerate start l) i =
    option_map (fun x => ((start + i)%nat, x)) (nth_error l i).
Proof.
  unfold enumerate. revert start i.
  induction l as [|x l IH]; intros start i; destruct i; simpl; auto.
  - rewrite Nat.add_0_r. reflexivity.
  - rewrite IH. rewrite Nat.add_succ_r. reflexivity.
Qed.

(** X6.  The tweets of a dispatch with attachments: one per group of the
    plan, each carrying its group.  The first carries the caller's text
    when there is one; every other, and the first when the text is empty,
    carries the page indicator of its position instead. *)
Theorem tweet_payloads_paged :
  forall body batch a attachments i,
    let groups := plan batch (a :: attachments) in
    List.length (tweet_payloads body batch (a :: attachments)) =
      List.length groups
    /\ nth_error (tweet_payloads body batch (a :: attachments)) i =
         option_map
           (fun g =>
              PStatus (if (i =? 0)%nat && negb (String.eqb body "")
                       then body
                       else page_indicator i (List.length groups))
                      (Some g))
           (nth_error groups i).
Proof.
  intros body batch a attachments i groups. unfold tweet_payloads.
  fold groups. split.
  - rewrite length_map. unfold enumerate.
    rewrite length_combine, length_seq. apply Nat.min_id.
  - rewrite nth_error_map, nth_error_enumerate. simpl.
    destruct (nth_error groups i) as [g|]; simpl; [|reflexivity].
    unfold paged_text. simpl.
    destruct (i =? 0)%nat, (String.eqb body ""); reflexivity.
Qed.

(** X7.  The number of lookups: [n] names make [n / 100] rounded up
    requests. *)
Theorem lookup_batches_count :
  forall names,
    List.length (lookup_batches names) =
      ((List.length names + 99) / 100)%nat.
Proof.
  intros names. apply slices_length. lia.
Qed.

(** ** More on the gateway *)

Lemma unrated_config o o' : unrated o = unrated o' -> config o = config o'.
Proof.
  intros H. unfold config.
  pose proof (f_equal ckey H) as H1. pose proof (f_equal csecret H) as H2.
  pose proof (f_equal akey H) as H3. pose proof (f_equal asecret H) as H4.
  pose proof (f_equal mode H) as H5. pose proof (f_equal cache H) as H6.
  pose proof (f_equal batch H) as H7. pose proof (f_equal targets H) as H8.
  simpl in *. congruence.
Qed.

Lemma fromtimestamp_in_range t :
  datetime_min <= t <= datetime_max -> fromtimestamp t = Returned (t * second).
Proof.
  unfold fromtimestamp, datetime_min, datetime_max, gmtime_min, gmtime_max,
    time_t_min, time_t_max.
  change (2 ^ 63) with 9223372036854775808. intros H.
  repeat match goal with
         | |- context [?a <? ?b] =>
             destruct (Z.ltb_spec a b); [lia|]
         end.
  reflexivity.
Qed.

Lemma delay_nonneg s : 0 <= delay (wait_of s).
Proof.
  unfold wait_of. destruct (ratelimit_wait (self s) (clock s)) as [d|] eqn:E;
    simpl; [|lia].
  apply ratelimit_wait_some in E. lia.
Qed.

Section GatewayMore.

Variable net : nat -> request -> outcome * N.

(** X8.  A call that [requests] fails with a [RequestException] or an
    [OSError] is reported as the value (False, {}): one warning is logged
    after the request, the notifier is left as it was, nothing is raised.
    Any other exception of [requests] leaves [_fetch] as it is. *)
Theorem fetch_reports_transport_errors :
  forall url p m j data s e took,
    fetch_data p j = Returned data ->
    net (List.length (requests_of (trace s)))
        {| r_url := url; r_method := m; r_body := data |} = (Fails e, took) ->
    let res := fst (_fetch net url p m j s) in
    let s' := snd (_fetch net url p m j s) in
    (e = RequestException \/ e = OSError ->
       res = Returned (false, JDict [])
       /\ self s' = self s
       /\ exists msg,
            trace s' = trace s ++
              [Throttle (wait_of s);
               Request (clock s + delay (wait_of s))
                 {| r_url := url; r_method := m; r_body := data |};
               Log Warning msg])
    /\ (e <> RequestException -> e <> OSError -> res = Raised e).
Proof.
  intros url p m j data s e took Hdata Hnet res s'. subst res s'.
  rewrite (_fetch_unfold net url p m j data s Hdata). cbv zeta.
  rewrite Hnet. cbn [fst snd self trace]. split.
  - intros [-> | ->]; simpl; repeat split; eauto.
  - intros H1 H2. destruct e; simpl; try reflexivity; contradiction.
Qed.

(** X9.  An answer whose body cannot be parsed stands for the empty
    object: with status 200 and headers that capture, the call is a
    success with {}; with any other status it is a failure with {}. *)
Theorem fetch_unparsable_body :
  forall url p m j data s r took,
    fetch_data p j = Returned data ->
    net (List.length (requests_of (trace s)))
        {| r_url := url; r_method := m; r_body := data |}
      = (Replied r, took) ->
    content r = None ->
    (accepted r = true ->
       fst (_fetch net url p m j s) = Returned (true, JDict []))
    /\ (status_code r <> 200 ->
        fst (_fetch net url p m j s) = Returned (false, JDict [])).
Proof.
  intros url p m j data s r took Hdata Hnet Hc.
  destruct (_fetch_replied net url p m j data s r took Hdata Hnet)
    as (Hres & _).
  rewrite Hres. assert (Hb : body_of r = JDict [])
    by (unfold body_of; rewrite Hc; reflexivity).
  split.
  - intros Hacc. rewrite (settle_of_accepted r (self s) Hacc), Hb.
    reflexivity.
  - intros Hbad. rewrite (settle_rejected r (self s) Hbad), Hb.
    reflexivity.
Qed.

(** X10.  An attachment that passes the accessibility check and is an
    image, but whose file cannot be opened: the [OSError] of [open] leaves
    [_fetch] and [send] as it is, before any throttle step or request and
    with the state untouched. *)
Theorem send_unopenable_attachment_raises :
  forall body a rest s,
    targets (self s) <> None ->
    accessible a = true -> is_image (mimetype a) = true ->
    openable a = false ->
    send net body (a :: rest) s = (Raised OSError, s).
Proof.
  intros body a rest s Ht Hacc Himg Hopen.
  unfold send, bind, get_self. simpl.
  destruct (targets (self s)); [|congruence].
  unfold enumerate. simpl. rewrite Hacc, Himg. simpl. unfold bind.
  rewrite (_fetch_open_fails net twitter_media (PAttach a) POST true OSError s)
    by (simpl; rewrite Hopen; reflexivity).
  reflexivity.
Qed.

(** X11.  How two calls compose.  When an accepted answer reports a
    remaining quota of 0 and a reset instant [t] that is still ahead, the
    next call is throttled for the time left until [t] plus 0.5 s, and its
    request leaves at [t] + 0.5 s.  When it reports any other remaining
    quota, the next call is not throttled, whatever the reset header. *)
Theorem exhausted_quota_delays_next_request :
  forall url p m j data s r took v,
    fetch_data p j = Returned data ->
    net (List.length (requests_of (trace s)))
        {| r_url := url; r_method := m; r_body := data |}
      = (Replied r, took) ->
    accepted r = true ->
    py_int (x_rate_limit_remaining r) = Returned v ->
    let s1 := snd (_fetch net url p m j s) in
    forall url' p' m' j' data',
      fetch_data p' j' = Returned data' ->
      let req' := {| r_url := url'; r_method := m'; r_body := data' |} in
      let tr' := trace (snd (_fetch net url' p' m' j' s1)) in
      (v <> 0 ->
         exists logs,
           tr' = trace s1 ++ Throttle None :: Request (clock s1) req' :: logs)
      /\ (forall t,
            v = 0 ->
            py_int (x_rate_limit_reset r) = Returned t ->
            datetime_min <= t <= datetime_max ->
            clock s1 < t * second ->
            exists logs,
              tr' = trace s1 ++
                    Throttle (Some (t * second - clock s1 + 500000))
                    :: Request (t * second + 500000) req' :: logs).
Proof.
  intros url p m j data s r took v Hdata Hnet Hacc Hrem s1
         url' p' m' j' data' Hdata' req' tr'.
  destruct (_fetch_replied net url p m j data s r took Hdata Hnet)
    as (_ & Hself & _).
  rewrite (settle_of_accepted r (self s) Hacc) in Hself. simpl in Hself.
  fold s1 in Hself. subst tr'.
  rewrite (_fetch_unfold net url' p' m' j' data' s1 Hdata'). cbv zeta.
  cbn [trace]. fold req'. split.
  - intros Hv.
    assert (Hw : wait_of s1 = None).
    { apply ratelimit_wait_none. intros [H0 _]. apply Hv.
      rewrite Hself in H0. unfold captured in H0. rewrite Hrem in H0.
      destruct (py_int (x_rate_limit_reset r)) as [t|e]; [|exact H0].
      destruct (fromtimestamp t); exact H0. }
    rewrite Hw. simpl. rewrite Z.add_0_r. eauto.
  - intros t -> Hreset Hrange Hlt.
    assert (Hw : wait_of s1 = Some (t * second - clock s1 + 500000)).
    { apply ratelimit_wait_some. rewrite Hself. unfold captured.
      rewrite Hrem, Hreset, (fromtimestamp_in_range t Hrange). simpl.
      repeat split. exact Hlt. }
    rewrite Hw. simpl.
    replace (clock s1 + (t * second - clock s1 + 500000))
      with (t * second + 500000) by lia.
    eauto.
Qed.

(** X12.  Whatever the remote end does, a call of [_fetch] changes nothing
    of the notifier but its two rate-limit fields: secrets, mode, flags,
    targets and both caches are as before. *)
Theorem fetch_only_touches_rate_limit :
  forall url p m j s,
    let o := self s in
    let o' := self (snd (_fetch net url p m j s)) in
    config o' = config o
    /\ _whoami_cache o' = _whoami_cache o
    /\ _user_cache o' = _user_cache o.
Proof.
  intros url p m j s o o'. subst o o'.
  pose proof (_fetch_unrated net url p m j s) as H.
  split; [apply unrated_config; exact H|].
  destruct (unrated_fields _ _ H) as (H1 & H2 & _). auto.
Qed.

End GatewayMore.

(** ** What a dispatch leaves alone *)

Section Keeps.

Variable net : nat -> request -> outcome * N.
Variable R : state -> state -> Prop.
Hypothesis R_refl : forall s, R s s.
Hypothesis R_trans : forall a b c, R a b -> R b c -> R a c.
Hypothesis R_log : forall lvl msg s, R s (snd (log lvl msg s)).
Hypothesis R_fetch : forall url p m j s, R s (snd (_fetch net url p m j s)).
Hypothesis R_whoami_cache :
  forall v s, R s (snd (modify_self (set_whoami_cache v) s)).
Hypothesis R_user_cache : forall results s, R s (snd (cache_results results s)).

Lemma keeps_ret {A} (a : A) : keeps R (ret a).
Proof. intros s. apply R_refl. Qed.

Lemma keeps_raise {A} (e : exn) : keeps R (@raise A e).
Proof. intros s. apply R_refl. Qed.

Lemma keeps_lift {A} (r : result A) : keeps R (lift r).
Proof. intros s. apply R_refl. Qed.

Lemma keeps_get_self : keeps R get_self.
Proof. intros s. apply R_refl. Qed.

Lemma keeps_bind {A B} (c : M A) (k : A -> M B) :
  keeps R c -> (forall a, keeps R (k a)) -> keeps R (bind c k).
Proof.
  intros Hc Hk s. unfold bind. specialize (Hc s).
  destruct (c s) as [[a|e] s1]; simpl in *; [|exact Hc].
  eapply R_trans; [exact Hc | apply Hk].
Qed.

Lemma keeps_try_except {A} (c : M A) classes (h : M A) :
  keeps R c -> keeps R h -> keeps R (try_except c classes h).
Proof.
  intros Hc Hh s. unfold try_except. specialize (Hc s).
  destruct (c s) as [[a|e] s1]; simpl in *; [exact Hc|].
  destruct (existsb (exn_eqb e) classes); [|exact Hc].
  eapply R_trans; [exact Hc | apply Hh].
Qed.

Create HintDb keeps.
#[local] Hint Resolve keeps_ret keeps_raise keeps_lift keeps_get_self
  R_log R_fetch R_whoami_cache R_user_cache : keeps.

Lemma keeps_log lvl msg : keeps R (log lvl msg).
Proof. intros s. apply R_log. Qed.

Lemma keeps__fetch url p m j : keeps R (_fetch net url p m j).
Proof. intros s. apply R_fetch. Qed.

#[local] Hint Resolve keeps_log keeps__fetch : keeps.

Ltac keeps_step :=
  first [ apply keeps_bind; [|intros ?]
        | apply keeps_try_except
        | progress auto with keeps ].

Lemma keeps__whoami lazy : keeps R (_whoami net lazy).
Proof.
  unfold _whoami. apply keeps_bind; [auto with keeps|]. intros o.
  destruct (if lazy then _whoami_cache o else None); [auto with keeps|].
  apply keeps_bind; [auto with keeps|]. intros [ok response].
  destruct ok; [|auto with keeps].
  apply keeps_try_except; [|auto with keeps].
  apply keeps_bind; [auto with keeps|]. intros id.
  apply keeps_bind; [auto with keeps|]. intros sn.
  apply keeps_bind; [auto with keeps|]. intros k.
  apply keeps_bind; [intros st; apply R_whoami_cache|]. intros _.
  apply keeps_bind; [intros st; apply R_user_cache | auto with keeps].
Qed.

Lemma keeps_lookup_loop batches results :
  keeps R (lookup_loop net batches results).
Proof.
  revert results. induction batches as [|names rest IH]; intros results;
    simpl; [auto with keeps|].
  apply keeps_bind; [auto with keeps|]. intros [ok response].
  destruct ok; [destruct response|]; apply IH.
Qed.

Lemma keeps__user_lookup handles lazy :
  keeps R (_user_lookup net handles lazy).
Proof.
  unfold _user_lookup. apply keeps_bind; [auto with keeps|]. intros o.
  destruct (match lazy, _user_cache o with
            | true, _ :: _ => _
            | _, _ => _
            end) as [results names].
  destruct names; [auto with keeps|].
  apply keeps_bind; [apply keeps_lookup_loop|]. intros r.
  apply keeps_bind; [intros st; apply R_user_cache | auto with keeps].
Qed.

Lemma keeps_log_all lvl msg n : keeps R (log_all lvl msg n).
Proof.
  induction n; simpl; [auto with keeps|].
  apply keeps_bind; auto with keeps.
Qed.

Lemma keeps_tweet_errors response : keeps R (tweet_errors response).
Proof. unfold tweet_errors. repeat keeps_step. Qed.

Lemma keeps_tweet_loop payloads has_error :
  keeps R (tweet_loop net payloads has_error).
Proof.
  revert has_error. induction payloads as [|p rest IH]; intros has_error;
    simpl; [auto with keeps|].
  apply keeps_bind; [auto with keeps|]. intros [ok response].
  destruct ok; simpl.
  - apply keeps_bind; [auto with keeps|]. intros _.
    apply keeps_bind; [auto with keeps|]. intros _. apply IH.
  - apply keeps_bind; [apply keeps_tweet_errors|]. intros errors.
    apply keeps_bind; [apply keeps_log_all|]. intros _. apply IH.
Qed.

Lemma keeps_dm_targets_loop p targets has_error :
  keeps R (dm_targets_loop net p targets has_error).
Proof.
  revert has_error. induction targets as [|[k id] rest IH];
    intros has_error; simpl; [auto with keeps|].
  apply keeps_bind; [auto with keeps|]. intros [ok response].
  destruct ok; simpl; [|apply IH].
  apply keeps_bind; [auto with keeps|]. intros _. apply IH.
Qed.

Lemma keeps_dm_loop payloads targets has_error :
  keeps R (dm_loop net payloads targets has_error).
Proof.
  revert has_error. induction payloads as [|p rest IH]; intros has_error;
    simpl; [auto with keeps|].
  apply keeps_bind; [apply keeps_dm_targets_loop|]. intros e. apply IH.
Qed.

Lemma keeps_upload_loop attach attachments :
  keeps R (upload_loop net attach attachments).
Proof.
  revert attachments. induction attach as [|[no a] rest IH];
    intros attachments; simpl; [auto with keeps|].
  destruct (negb (accessible a)); [apply keeps_bind; auto with keeps|].
  destruct (negb (is_image (mimetype a))).
  { apply keeps_bind; [auto with keeps|]. intros _. apply IH. }
  apply keeps_bind; [auto with keeps|]. intros [ok response].
  destruct ok; simpl; [|auto with keeps].
  destruct (uploaded_media_id response); [apply IH|].
  apply keeps_bind; [auto with keeps|]. intros _. apply IH.
Qed.

Lemma keeps_send body attach : keeps R (send net body attach).
Proof.
  unfold send. apply keeps_bind; [auto with keeps|]. intros o.
  destruct (targets o); [|apply keeps_bind; auto with keeps].
  apply keeps_bind; [apply keeps_upload_loop|]. intros [attachments|];
    [|auto with keeps].
  destruct (mode o).
  - unfold _send_dm. apply keeps_bind; [auto with keeps|]. intros o'.
    destruct (targets o') as [handles|]; [|auto with keeps].
    apply keeps_bind.
    + destruct handles; [apply keeps__whoami | apply keeps__user_lookup].
    + intros tg. destruct tg.
      * apply keeps_bind; auto with keeps.
      * apply keeps_bind; [apply keeps_dm_loop | auto with keeps].
  - unfold _send_tweet. apply keeps_bind; [auto with keeps|]. intros o'.
    apply keeps_bind; [apply keeps_tweet_loop | auto with keeps].
Qed.

End Keeps.

Lemma settled_fetch net url p m j s :
  settled s (snd (_fetch net url p m j s)).
Proof.
  split.
  - symmetry. apply unrated_config. apply _fetch_unrated.
  - destruct (fetch_data p j) as [data|e] eqn:H.
    + rewrite (_fetch_unfold net url p m j data s H). simpl.
      pose proof (delay_nonneg s). lia.
    + rewrite (_fetch_open_fails net url p m j e s H). simpl. lia.
Qed.

(** X13.  A dispatch, however it ends, leaves the notifier's secrets,
    mode, cache and batch flags and targets as they were, and the clock
    does not go back: only the caches and the rate-limit fields move. *)
Theorem send_keeps_configuration :
  forall net body attach s,
    config (self (snd (send net body attach s))) = config (self s)
    /\ clock s <= clock (snd (send net body attach s)).
Proof.
  intros net body attach s.
  assert (H : settled s (snd (send net body attach s))).
  { apply (keeps_send net settled).
    - intros s0. split; [reflexivity | lia].
    - intros a b c [H1 H2] [H3 H4]. split; [congruence | lia].
    - intros lvl msg s0. split; [reflexivity | simpl; lia].
    - intros url p m j s0. apply settled_fetch.
    - intros v s0. split; [reflexivity | simpl; lia].
    - intros results s0. split; [reflexivity | simpl; lia]. }
  destruct H as [H1 H2]. split; [symmetry; exact H1 | exact H2].
Qed.

(** ** More on the resolver *)

Lemma subscript_raises j k e :
  subscript j k = Raised e -> e = KeyError \/ e = TypeError.
Proof.
  unfold subscript. destruct j; try (intros [= <-]; auto).
  destruct (assoc_last k d); [discriminate | intros [= <-]; auto].
Qed.

Lemma as_key_raises j e : as_key j = Raised e -> e = TypeError.
Proof. destruct j; simpl; try discriminate; intros [= <-]; reflexivity. Qed.

Lemma dict_mem_set k k' v d :
  dict_mem k d = true -> dict_mem k (dict_set k' v d) = true.
Proof.
  induction d as [|[k2 v2] d IH]; simpl; [discriminate|].
  destruct (pykey_eqb k' k2) eqn:E; simpl; [auto|].
  destruct (pykey_eqb k k2); simpl; auto.
Qed.

Lemma dict_mem_record_entries entries results k :
  dict_mem k results = true ->
  dict_mem k (fold_left record_entry entries results) = true.
Proof.
  revert results. induction entries as [|e entries IH]; intros results H;
    simpl; [exact H|].
  apply IH. unfold record_entry.
  destruct (subscript e "id"); [|exact H].
  destruct (subscript e "screen_name"); [|exact H].
  destruct (as_key a0); [|exact H].
  apply dict_mem_set. exact H.
Qed.

Lemma dict_mem_merged net n batches results k :
  dict_mem k results = true ->
  dict_mem k (merged net n batches results) = true.
Proof.
  revert n results. induction batches as [|names rest IH];
    intros n results H; simpl; [exact H|].
  apply IH. apply dict_mem_record_entries. exact H.
Qed.

Lemma dict_mem_filter (f : pykey -> bool) k d :
  f k = true ->
  dict_mem k (filter (fun kv => f (fst kv)) d) = dict_mem k d.
Proof.
  intros Hf. induction d as [|[k2 v2] d IH]; simpl; [reflexivity|].
  destruct (pykey_eqb k k2) eqn:E.
  - apply pykey_eqb_eq in E. subst k2. rewrite Hf. simpl.
    rewrite pykey_eqb_refl. reflexivity.
  - destruct (f k2); simpl; rewrite ?E; exact IH.
Qed.

Section ResolverMore.

Variable net : nat -> request -> outcome * N.

(** X14.  Once an accepted answer has named the account, the pair is
    served from the cache: a second lazy [_whoami] returns it with no
    request and no change of state, and so does a lazy [_user_lookup] of
    that screen name, which finds it in the user cache. *)
Theorem whoami_answer_is_cached :
  forall (lazy : bool) s r took id name,
    (if lazy then _whoami_cache (self s) else None) = None ->
    net (List.length (requests_of (trace s))) whoami_request
      = (Replied r, took) ->
    accepted r = true ->
    subscript (body_of r) "id" = Returned id ->
    subscript (body_of r) "screen_name" = Returned (JStr name) ->
    exists s1,
      _whoami net lazy s = (Returned [(KStr name, id)], s1)
      /\ _whoami net true s1 = (Returned [(KStr name, id)], s1)
      /\ exists again,
           _user_lookup net [name] true s1 = (Returned again, s1)
           /\ dict_find (KStr name) again = Some id.
Proof.
  intros lazy s r took id name Hc Hnet Hacc Hid Hsn.
  destruct (_whoami_accepted net lazy s r took id (JStr name) (KStr name)
              Hc Hnet Hacc Hid Hsn eq_refl) as (s1 & Hw & _ & Hwc & Huc).
  exists s1. split; [exact Hw|]. split.
  - unfold _whoami, bind, get_self. simpl. rewrite Hwc. reflexivity.
  - unfold _user_lookup, bind, get_self. simpl.
    destruct (_user_cache (self s1)) as [|kv d] eqn:Ec;
      [discriminate Huc|].
    assert (Hall : forall h, In h [name] ->
              dict_mem (KStr h) (kv :: d) = true).
    { intros h [<-|[]]. apply dict_mem_find. rewrite Huc. discriminate. }
    assert (En : negb (dict_mem (KStr name)
                   (filter (fun kv0 => key_in (fst kv0) [name]) (kv :: d)))
                 = false).
    { apply negb_false_iff.
      rewrite (dict_mem_filter (fun k => key_in k [name]))
        by (apply key_in_name; left; reflexivity).
      apply Hall. left. reflexivity. }
    assert (Hfind : dict_find (KStr name)
                      (filter (fun kv0 => key_in (fst kv0) [name]) (kv :: d))
                    = Some id).
    { rewrite (dict_find_filter (fun k => key_in k [name]))
        by (apply key_in_name; left; reflexivity).
      exact Huc. }
    simpl. simpl in En. rewrite En.
    eexists. split; [reflexivity|].
    simpl in Hfind. exact Hfind.
Qed.

(** X15.  A [_whoami] that does not get an accepted answer naming the
    account (the call failed, or the body lacks [id] or [screen_name], or
    the name cannot be a key) returns the empty mapping after its one
    request and leaves both caches as they were, so that the next call
    asks again. *)
Theorem whoami_failure_resolves_nothing :
  forall (lazy : bool) s,
    (if lazy then _whoami_cache (self s) else None) = None ->
    handled (fst (net (List.length (requests_of (trace s)))
                      whoami_request)) = true ->
    (forall r id screen_name k,
       fst (net (List.length (requests_of (trace s))) whoami_request)
         = Replied r ->
       accepted r = true ->
       subscript (body_of r) "id" = Returned id ->
       subscript (body_of r) "screen_name" = Returned screen_name ->
       as_key screen_name = Returned k -> False) ->
    exists s1,
      _whoami net lazy s = (Returned [], s1)
      /\ _whoami_cache (self s1) = _whoami_cache (self s)
      /\ _user_cache (self s1) = _user_cache (self s)
      /\ sent (trace s1) = sent (trace s) ++ [whoami_request].
Proof.
  intros lazy s Hc Hh Hno.
  destruct (_fetch_handled net twitter_whoami PNone GET false (Data PNone) s
              eq_refl Hh) as (s1 & Hf & Hs1 & Hu1).
  fold whoami_request in *.
  destruct (unrated_fields _ _ Hu1) as (Huc & Hwc & _).
  unfold _whoami, bind, get_self. simpl. rewrite Hc.
  unfold bind in Hf. rewrite Hf.
  destruct (fst (net (List.length (requests_of (trace s))) whoami_request))
    as [r|e] eqn:Eo; [|exists s1; auto].
  destruct (accepted r) eqn:Ea; [|exists s1; auto].
  specialize (Hno r).
  unfold try_except, bind, lift, modify_self, cache_results, ret.
  destruct (subscript (body_of r) "id") as [id|e1] eqn:E1; simpl.
  - destruct (subscript (body_of r) "screen_name") as [sn|e2] eqn:E2; simpl.
    + destruct (as_key sn) as [k|e3] eqn:E3; simpl.
      * exfalso. eapply Hno; eauto.
      * rewrite (as_key_raises _ _ E3). simpl. exists s1. auto.
    + destruct (subscript_raises _ _ _ E2) as [-> | ->]; simpl;
        exists s1; auto.
  - destruct (subscript_raises _ _ _ E1) as [-> | ->]; simpl;
      exists s1; auto.
Qed.

Hypothesis net_handled : forall n req, handled (fst (net n req)) = true.

(** X16.  In the lookup loop a batch that fails, or whose answer is no
    list, neither stops the batches after it nor costs what is resolved
    already: every batch is requested, and every handle in the results
    before the loop is in the results after it. *)
Theorem lookup_keeps_resolved :
  forall batches results s,
    exists results' s',
      lookup_loop net batches results s = (Returned results', s')
      /\ sent (trace s') = sent (trace s) ++ map lookup_request batches
      /\ forall k, dict_mem k results = true -> dict_mem k results' = true.
Proof.
  intros batches results s.
  destruct (lookup_loop_merged net net_handled batches results s)
    as (s' & Hl & Hs & _).
  eexists _, s'. split; [exact Hl|]. split; [exact Hs|].
  intros k Hk. apply dict_mem_merged. exact Hk.
Qed.

(** X17.  Which names [_user_lookup] asks for: with the cache enabled, the
    deduplicated names that are not keys of the user cache, and only
    those; with the cache disabled, all of them, cached or not.  A name
    served from the cache is in the result. *)
Theorem user_lookup_asks_for_uncached :
  forall handles (lazy : bool) s,
    let names := parse_list handles in
    let cached := fun n => dict_mem (KStr n) (_user_cache (self s)) in
    let pending :=
      if lazy then filter (fun n => negb (cached n)) names else names in
    exists results s1,
      _user_lookup net handles lazy s = (Returned results, s1)
      /\ sent (trace s1) =
           sent (trace s) ++ map lookup_request (lookup_batches pending)
      /\ (lazy = true ->
          forall n, In n names -> cached n = true ->
                    dict_mem (KStr n) results = true).
Proof.
  intros handles lazy s names cached pending.
  pose (hits := filter (fun kv => key_in (fst kv) names)
                       (_user_cache (self s))).
  assert (Hhit : forall n, In n names ->
            dict_mem (KStr n) hits = cached n).
  { intros n Hn. unfold hits, cached.
    apply (dict_mem_filter (fun k => key_in k names)).
    apply key_in_name. exact Hn. }
  assert (Hsplit :
    (match lazy, _user_cache (self s) with
     | true, _ :: _ =>
         (hits,
          filter (fun name => negb (dict_mem (KStr name) hits)) names)
     | _, _ => ([], names)
     end) = ((if lazy then hits else []) : pydict, pending)).
  { subst pending. destruct lazy; [|reflexivity].
    destruct (_user_cache (self s)) as [|kv d] eqn:Ec.
    - unfold hits. rewrite ?Ec. simpl. apply (f_equal (pair [])). symmetry.
      apply filter_all. intros n _. unfold cached. rewrite ?Ec. reflexivity.
    - apply (f_equal (pair hits)). apply filter_ext_in. intros n Hn.
      rewrite (Hhit n Hn). reflexivity. }
  assert (Hstart : forall n, lazy = true -> In n names -> cached n = true ->
            dict_mem (KStr n) (if lazy then hits else []) = true).
  { intros n -> Hn Hcn. rewrite (Hhit n Hn). exact Hcn. }
  unfold _user_lookup, bind, get_self. simpl. fold names. fold hits.
  rewrite Hsplit. clearbody pending.
  destruct pending as [|h rest].
  - exists (if lazy then hits else []), s. simpl. rewrite app_nil_r.
    split; [destruct s; reflexivity|]. split; [reflexivity|].
    intros Hl n Hn Hcn. apply Hstart; assumption.
  - destruct (lookup_loop_merged net net_handled (lookup_batches (h :: rest))
                (if lazy then hits else []) s) as (s1 & Hl & Hs1 & _).
    set (res := merged net _ _ _) in Hl.
    unfold bind in Hl. rewrite Hl.
    exists res. eexists. split; [reflexivity|]. split; [exact Hs1|].
    intros Hlz n Hn Hcn. subst res. apply dict_mem_merged.
    apply Hstart; assumption.
Qed.

End ResolverMore.

(** ** More on the senders *)

Lemma dm_payloads_events body targets attachments :
  forallb is_event (dm_payloads body targets attachments) = true.
Proof.
  unfold dm_payloads. destruct attachments; [reflexivity|].
  apply forallb_forall. intros p Hp. apply in_map_iff in Hp.
  destruct Hp as (x & <- & _). reflexivity.
Qed.

Lemma length_enumerate {A} start (l : list A) :
  List.length (enumerate start l) = List.length l.
Proof.
  unfold enumerate. rewrite length_combine, length_seq. apply Nat.min_id.
Qed.

Lemma dm_payloads_length body targets attachments :
  List.length (dm_payloads body targets attachments)
    = Nat.max 1 (List.length attachments).
Proof.
  unfold dm_payloads. destruct attachments as [|a l]; [reflexivity|].
  rewrite length_map, length_enumerate. simpl. reflexivity.
Qed.

Lemma length_flat_map_const {A B} (f : A -> list B) (l : list A) n :
  (forall a, List.length (f a) = n) ->
  List.length (flat_map f l) = (List.length l * n)%nat.
Proof.
  intros H. induction l as [|a l IH]; simpl; [reflexivity|].
  rewrite length_app, H, IH. reflexivity.
Qed.

Section SenderMore.

Variable net : nat -> request -> outcome * N.
Hypothesis net_handled : forall n req, handled (fst (net n req)) = true.

(** X19.  [_send_dm], once its recipients are resolved: every payload
    (one for the text alone, one per attachment otherwise) is sent to
    every recipient, also after a send has failed; the verdict is true
    exactly when there is a recipient and every send succeeded; with no
    recipient resolved nothing is sent and the verdict is false. *)
Theorem send_dm_verdict :
  forall body attachments s handles resolved s0,
    targets (self s) = Some handles ->
    recipients net handles (cache (self s)) s = (Returned resolved, s0) ->
    let reqs :=
      flat_map (fun p => map (fun kv => message_request p (snd kv)) resolved)
               (dm_payloads body resolved attachments) in
    exists s1,
      _send_dm net body attachments s =
        (Returned
           (match resolved with
            | [] => false
            | _ => all_succeed net (List.length (requests_of (trace s0))) reqs
            end), s1)
      /\ sent (trace s1) = sent (trace s0) ++ reqs
      /\ List.length reqs =
           (Nat.max 1 (List.length attachments) * List.length resolved)%nat.
Proof.
  intros body attachments s handles resolved s0 Ht Hres reqs.
  assert (Hlen : List.length reqs =
            (Nat.max 1 (List.length attachments) * List.length resolved)%nat).
  { subst reqs. rewrite <- (dm_payloads_length body resolved attachments).
    apply length_flat_map_const. intros p. apply length_map. }
  assert (Hstep :
    _send_dm net body attachments s =
      match resolved with
      | [] =>
          (log Warning
             "Failed to acquire user(s) to Direct Message via Twitter" ;;
           ret false) s0
      | _ =>
          (has_error <-
             dm_loop net (dm_payloads body resolved attachments) resolved
                     false ;;
           ret (negb has_error)) s0
      end).
  { unfold _send_dm, bind at 1, get_self. cbn [fst snd]. rewrite Ht.
    unfold recipients in Hres. unfold bind at 1.
    destruct handles; rewrite Hres; destruct resolved; reflexivity. }
  rewrite Hstep. destruct resolved as [|kv rest].
  - eexists. split; [reflexivity|]. split; [|exact Hlen].
    subst reqs. simpl. rewrite sent_app. simpl.
    clear. induction (dm_payloads body [] attachments); simpl; auto.
  - destruct (dm_loop_verdict net net_handled
                (dm_payloads body (kv :: rest) attachments) (kv :: rest)
                false s0 (dm_payloads_events _ _ _))
      as (s1 & Hl & Hs1 & _).
    fold reqs in Hl, Hs1.
    exists s1. unfold bind. rewrite Hl. cbn [orb]. unfold ret.
    rewrite negb_involutive. auto.
Qed.

End SenderMore.

(** ** More on construction and the URL *)

Lemma prefix_prefixes m b :
  String.prefix m b = true <-> In m (prefixes b).
Proof.
  revert m. induction b as [|c b IH]; intros m.
  - destruct m as [|a m]; simpl; split; auto; try discriminate.
    intros [H|[]]. discriminate H.
  - destruct m as [|a m]; simpl; [split; auto|].
    destruct (ascii_dec a c) as [->|Hne].
    + rewrite IH. split.
      * intros H. right. apply in_map. exact H.
      * intros [H|H]; [discriminate H|]. apply in_map_iff in H.
        destruct H as (x & [= <-] & Hx). exact Hx.
    + split; [discriminate|]. intros [H|H]; [discriminate H|].
      apply in_map_iff in H. destruct H as (x & [= E _] & _).
      congruence.
Qed.

Lemma resolve_mode_cases m :
  (In m [""; "d"; "dm"] /\ resolve_mode (Some m) = Returned DM)
  \/ (In m ["t"; "tw"; "twe"; "twee"; "tweet"]
      /\ resolve_mode (Some m) = Returned TWEET)
  \/ (~ In m [""; "d"; "dm"; "t"; "tw"; "twe"; "twee"; "tweet"]
      /\ resolve_mode (Some m) = Raised TypeError).
Proof.
  unfold resolve_mode.
  destruct (String.eqb m "") eqn:E0.
  { apply String.eqb_eq in E0. subst m. left. simpl. auto. }
  apply String.eqb_neq in E0.
  cbn [TWITTER_MESSAGE_MODES find mode_value].
  destruct (String.prefix m "dm") eqn:Ed.
  { left. split; [|reflexivity]. apply prefix_prefixes in Ed. exact Ed. }
  destruct (String.prefix m "tweet") eqn:Et.
  { right. left. split; [|reflexivity]. apply prefix_prefixes in Et.
    simpl in Et. destruct Et as [<-|Et]; [congruence | exact Et]. }
  right. right. split; [|reflexivity].
  intros [<-|[<-|[<-|[<-|[<-|[<-|[<-|[<-|[]]]]]]]]];
    try discriminate Ed; try discriminate Et; congruence.
Qed.

(** X20.  The mode argument of the constructor is taken as it is written,
    not in lower case.  With four valid secrets, the empty string and the
    prefixes of ["dm"] construct a direct-message notifier, as no mode
    does, and the non-empty prefixes of ["tweet"] construct a tweet
    notifier; every other string, ["TWEET"] and ["Dm"] among them, is a
    [TypeError], whatever the other arguments. *)
Theorem init_mode_is_a_prefix :
  forall cr ck cs ak asec tg ca ba,
    validate_regex ck <> None -> validate_regex cs <> None ->
    validate_regex ak <> None -> validate_regex asec <> None ->
    (forall m,
       In m [""; "d"; "dm"] ->
       exists o, __init__ cr ck cs ak asec tg (Some m) ca ba = Returned o
                 /\ mode o = DM)
    /\ (forall m,
          In m ["t"; "tw"; "twe"; "twee"; "tweet"] ->
          exists o, __init__ cr ck cs ak asec tg (Some m) ca ba = Returned o
                    /\ mode o = TWEET)
    /\ (exists o, __init__ cr ck cs ak asec tg None ca ba = Returned o
                  /\ mode o = DM)
    /\ (forall m,
          ~ In m [""; "d"; "dm"; "t"; "tw"; "twe"; "twee"; "tweet"] ->
          __init__ cr ck cs ak asec tg (Some m) ca ba = Raised TypeError)
    /\ __init__ cr ck cs ak asec tg (Some "TWEET") ca ba = Raised TypeError
    /\ __init__ cr ck cs ak asec tg (Some "Dm") ca ba = Raised TypeError.
Proof.
  intros cr ck cs ak asec tg ca ba Hck Hcs Hak Has.
  assert (Hok : forall md a,
            resolve_mode md = Returned a ->
            exists o, __init__ cr ck cs ak asec tg md ca ba = Returned o
                      /\ mode o = a).
  { intros md a H. unfold __init__. rewrite H.
    destruct (validate_regex ck); [|congruence].
    destruct (validate_regex cs); [|congruence].
    destruct (validate_regex ak); [|congruence].
    destruct (validate_regex asec); [|congruence].
    destruct (load_targets (parse_list tg)) as [kept err].
    eexists. split; reflexivity. }
  assert (Hbad : forall m',
            resolve_mode (Some m') = Raised TypeError ->
            __init__ cr ck cs ak asec tg (Some m') ca ba = Raised TypeError).
  { intros m' H. unfold __init__. rewrite H.
    destruct (validate_regex ck); [|reflexivity].
    destruct (validate_regex cs); [|reflexivity].
    destruct (validate_regex ak); [|reflexivity].
    destruct (validate_regex asec); reflexivity. }
  split; [|split; [|split; [|split; [|split]]]].
  - intros m Hin. apply Hok.
    destruct Hin as [<-|[<-|[<-|[]]]]; reflexivity.
  - intros m Hin. apply Hok.
    destruct Hin as [<-|[<-|[<-|[<-|[<-|[]]]]]]; reflexivity.
  - apply Hok. reflexivity.
  - intros m Hnot. apply Hbad.
    destruct (resolve_mode_cases m) as [[Hin E]|[[Hin E]|[Hin E]]];
      [exfalso; apply Hnot | exfalso; apply Hnot | exact E].
    + destruct Hin as [<-|[<-|[<-|[]]]]; simpl; auto.
    + destruct Hin as [<-|[<-|[<-|[<-|[<-|[]]]]]]; simpl; auto 10.
  - apply Hbad. reflexivity.
  - apply Hbad. reflexivity.
Qed.







Section UrlMore.

Variable parse_bool : string -> bool -> bool.


End UrlMore.

(* ================================================================= *)
(** ** Concrete runs of the further properties *)

(** X8 at work: the remote end is down. *)
Lemma fetch_reports_transport_errors_witness :
  let s := boot (bot TWEET true (Some [])) in
  fst (_fetch net_down twitter_tweet (PStatus "hi" None) POST false s)
    = Returned (false, JDict [])
  /\ self (snd (_fetch net_down twitter_tweet (PStatus "hi" None) POST false
                       s)) = self s.
Proof.
  intros s.
  pose proof (fetch_reports_transport_errors net_down twitter_tweet
                (PStatus "hi" None) POST false (Data (PStatus "hi" None)) s
                RequestException 0%N eq_refl eq_refl) as H.
  cbv zeta in H. destruct H as [H _].
  destruct (H (or_introl eq_refl)) as (H1 & H2 & _).
  split; [exact H1 | exact H2].
Defined.

(** X9 at work: status 200 and a body that does not parse. *)
Lemma fetch_unparsable_body_witness :
  fst (_fetch net_garbled twitter_tweet (PStatus "hi" None) POST false
              (boot (bot TWEET true (Some []))))
    = Returned (true, JDict []).
Proof.
  exact (proj1 (fetch_unparsable_body net_garbled twitter_tweet
                  (PStatus "hi" None) POST false (Data (PStatus "hi" None))
                  (boot (bot TWEET true (Some [])))
                  {| status_code := 200; content := None;
                     x_rate_limit_remaining := None;
                     x_rate_limit_reset := None |}
                  0%N eq_refl eq_refl eq_refl) eq_refl).
Defined.

(** X10 at work: a picture that is there but cannot be read. *)
Lemma send_unopenable_attachment_raises_witness :
  let locked := {| accessible := true; mimetype := "image/png";
                   name := "a.png"; path := "/tmp/a.png";
                   openable := false |} in
  let s := boot (bot TWEET true (Some [])) in
  send net_quota "hi" [locked] s = (Raised OSError, s).
Proof.
  intros locked s.
  apply (send_unopenable_attachment_raises net_quota "hi" locked [] s).
  - intros H. discriminate H.
  - reflexivity.
  - reflexivity.
  - reflexivity.
Defined.

(** X11 at work: the quota is used up and comes back 900 s after
    [boot]; the second tweet leaves half a second after that. *)
Lemma exhausted_quota_delays_next_request_witness :
  let s := boot (bot TWEET true (Some [])) in
  let s1 := snd (_fetch net_exhausted twitter_tweet (PStatus "one" None)
                        POST false s) in
  exists logs,
    trace (snd (_fetch net_exhausted twitter_tweet (PStatus "two" None)
                       POST false s1))
      = trace s1 ++
        Throttle (Some (1700000900 * second - clock s1 + 500000))
        :: Request (1700000900 * second + 500000)
                   {| r_url := twitter_tweet; r_method := POST;
                      r_body := Data (PStatus "two" None) |}
        :: logs.
Proof.
  intros s s1.
  pose proof (exhausted_quota_delays_next_request net_exhausted
                twitter_tweet (PStatus "one" None) POST false
                (Data (PStatus "one" None)) s
                {| status_code := 200; content := Some (JDict []);
                   x_rate_limit_remaining := Some "0";
                   x_rate_limit_reset := Some "1700000900" |}
                0%N 0 eq_refl eq_refl eq_refl eq_refl) as H.
  cbv zeta in H.
  destruct (H twitter_tweet (PStatus "two" None) POST false
              (Data (PStatus "two" None)) eq_refl) as [_ H2].
  apply (H2 1700000900 eq_refl eq_refl).
  - split; intros E; discriminate E.
  - reflexivity.
Defined.

(** X14 at work: the account is asked for once. *)
Lemma whoami_answer_is_cached_witness :
  exists s1,
    _whoami net_account true (boot (bot DM true (Some [])))
      = (Returned [(KStr "bot", JInt 7)], s1)
    /\ _whoami net_account true s1 = (Returned [(KStr "bot", JInt 7)], s1)
    /\ exists again,
         _user_lookup net_account ["bot"] true s1 = (Returned again, s1)
         /\ dict_find (KStr "bot") again = Some (JInt 7).
Proof.
  exact (whoami_answer_is_cached net_account true
           (boot (bot DM true (Some [])))
           {| status_code := 200;
              content :=
                Some (JDict [("id", JInt 7); ("screen_name", JStr "bot")]);
              x_rate_limit_remaining := Some "14";
              x_rate_limit_reset := Some "1700000900" |}
           0%N (JInt 7) "bot" eq_refl eq_refl eq_refl eq_refl eq_refl).
Defined.

(** X15 at work: the remote end is down. *)
Lemma whoami_failure_resolves_nothing_witness :
  let s := boot (bot DM true (Some [])) in
  exists s1,
    _whoami net_down true s = (Returned [], s1)
    /\ _whoami_cache (self s1) = _whoami_cache (self s)
    /\ _user_cache (self s1) = _user_cache (self s)
    /\ sent (trace s1) = sent (trace s) ++ [whoami_request].
Proof.
  intros s.
  apply (whoami_failure_resolves_nothing net_down true s).
  - reflexivity.
  - reflexivity.
  - intros r id screen_name k H. discriminate H.
Defined.

(** X16 at work: two batches against a remote end that is down. *)
Lemma lookup_keeps_resolved_witness :
  let s := boot (bot DM true (Some ["alice"; "bob"])) in
  exists results' s',
    lookup_loop net_down [["alice"]; ["bob"]] [(KStr "carol", JInt 3)] s
      = (Returned results', s')
    /\ sent (trace s') =
         sent (trace s) ++ map lookup_request [["alice"]; ["bob"]]
    /\ forall k,
         dict_mem k [(KStr "carol", JInt 3)] = true ->
         dict_mem k results' = true.
Proof.
  intros s.
  exact (lookup_keeps_resolved net_down (fun _ _ => eq_refl)
           [["alice"]; ["bob"]] [(KStr "carol", JInt 3)] s).
Defined.

(** X17 at work: a handle written twice is asked for once. *)
Lemma user_lookup_asks_for_uncached_witness :
  let s := boot (bot DM true (Some ["alice"])) in
  exists results s1,
    _user_lookup net_directory ["alice"; "alice"] true s
      = (Returned results, s1)
    /\ sent (trace s1) = sent (trace s) ++ [lookup_request ["alice"]].
Proof.
  intros s.
  destruct (user_lookup_asks_for_uncached net_directory
              (fun _ _ => eq_refl) ["alice"; "alice"] true s)
    as (results & s1 & H1 & H2 & _).
  exists results, s1. split; [exact H1 | exact H2].
Defined.

(** X18 at work: a picture and an animation, one tweet. *)
Lemma send_tweet_verdict_witness :
  let s := boot (bot TWEET true (Some [])) in
  let attachments := [uploaded 1 "image/png"; uploaded 2 "image/gif"] in
  let reqs :=
    map tweet_request (tweet_payloads "hi" (batch (self s)) attachments) in
  exists s1,
    _send_tweet net_quota "hi" attachments s =
      (Returned (all_succeed net_quota (List.length (requests_of (trace s)))
                   reqs), s1)
    /\ sent (trace s1) = sent (trace s) ++ reqs.
Proof.
  intros s attachments.
  exact (send_tweet_verdict net_quota (fun _ _ => eq_refl)
           (fun _ _ => eq_refl) "hi" attachments s).
Defined.

(** X19 at work: one message to alice, once she is looked up. *)
Lemma send_dm_verdict_witness :
  let s := boot (bot DM true (Some ["alice"])) in
  let s0 := snd (_user_lookup net_directory ["alice"] true s) in
  exists s1,
    _send_dm net_directory "hi" [] s = (Returned true, s1)
    /\ sent (trace s1) =
         sent (trace s0) ++
         [message_request (PEvent JNull "hi" None) (JInt 7)].
Proof.
  intros s s0.
  destruct (send_dm_verdict net_directory (fun _ _ => eq_refl) "hi" [] s
              ["alice"] [(KStr "alice", JInt 7)] s0 eq_refl eq_refl)
    as (s1 & H1 & H2 & _).
  exists s1. split; [exact H1 | exact H2].
Defined.


(** X20 at work: a proper prefix of each mode, and a mode in capitals. *)
Lemma init_mode_is_a_prefix_witness :
  (exists o, __init__ 0 "ck" "cs" "ak" "as" [] (Some "tw") true true
               = Returned o /\ mode o = TWEET)
  /\ (exists o, __init__ 0 "ck" "cs" "ak" "as" [] (Some "d") true true
                  = Returned o /\ mode o = DM)
  /\ __init__ 0 "ck" "cs" "ak" "as" [] (Some "Tweet") true true
       = Raised TypeError.
Proof.
  pose proof (init_mode_is_a_prefix 0 "ck" "cs" "ak" "as" [] true true)
    as H.
  destruct H as (Hdm & Htw & _ & Hbad & _).
  - intros E; discriminate E.
  - intros E; discriminate E.
  - intros E; discriminate E.
  - intros E; discriminate E.
  - split; [|split].
    + apply (Htw "tw"). simpl. auto.
    + apply (Hdm "d"). simpl. auto.
    + apply (Hbad "Tweet").
      intros [E|[E|[E|[E|[E|[E|[E|[E|[]]]]]]]]]; discriminate E.
Defined.

